(** * Snyk / GitHub issue synchronisation: a shallow embedding

    Embedding of [scripts/snyk-github-issue-sync.ts].  The script reads a Snyk
    report, groups its findings by vulnerability identifier, indexes the open
    GitHub issues that carry the label [snyk-vulnerability] by the identifier
    in their title, and creates, updates or closes issues accordingly.

    Modelling choices.
    - JavaScript strings are [string]s; the only characters the script
      inspects (brackets, letters, digits, [-] and [:]) are ASCII.
    - [undefined] is [None].
    - A JavaScript object used as a dictionary ([vulnerabilityStore],
      [snykGithubIssueMap]) is the association list of its own properties in
      creation order; [Object.entries] enumerates array-index keys first, in
      ascending order, as ECMAScript prescribes.  Both dictionaries are
      created by [{}] and so inherit the members of [Object.prototype]
      ([constructor], [toString], ...): a read [o[k]] finds an own property,
      or else an inherited member, or else [undefined] ([JsObject.lookup]).
    - An exception is a value of [Exception]; code that may throw returns a
      [Result].  The only [throw] of the script is the [TypeError] raised in
      the grouping callback by [vulnerabilityStore[id].packages.some] when
      [vulnerabilityStore[id]] is an inherited member; [main().catch] prints
      its stack and exits with code 1.
    - A GitHub issue number is a [positive], as GitHub numbers issues from 1;
      a stored issue number is therefore truthy.
    - Console output, the requests sent to GitHub and GitHub's issues are
      fields of an explicit [World] threaded through a state monad.  Every
      request succeeds: transport failures are not modelled.
    - The imports are hoisted: [../snyk.json] is loaded, and [process.argv]
      parsed, before the token check; [script] takes the outcome of that
      import and the parsed flag as its inputs.  The two library imports
      ([@octokit/rest], [minimist]) are taken to succeed. *)

From Stdlib Require Import List String Ascii Bool Arith PArith NArith Lia.
From Stdlib Require Import Permutation Sorted DecimalString.
Import ListNotations.

Local Open Scope string_scope.
Local Open Scope list_scope.

(** * Part I: the program *)

(** ** Strings *)

(** The line feed of the source's template literals. *)
Definition LF : string := String (ascii_of_nat 10) EmptyString.

(** A number inside a template literal: its decimal digits. *)
Definition decimal (n : positive) : string :=
  NilEmpty.string_of_uint (Pos.to_uint n).

(** ** JavaScript objects used as dictionaries *)

Module JsObject.

(** Own properties, oldest first. *)
Definition t (V : Type) := list (string * V).

Definition empty {V} : t V := [].

(** The own property [k] of [o]. *)
Fixpoint get {V} (k : string) (o : t V) : option V :=
  match o with
  | [] => None
  | (k', v) :: o' => if String.eqb k k' then Some v else get k o'
  end.

(** [o[k] = v]: an existing property keeps its place, a new one goes last.
    The inherited members but one are writable data properties, so the
    assignment creates an own property under their name as well.  The
    exception, the accessor [__proto__], is never assigned by the script:
    [indexIssue] assigns under a capture of the pattern, which holds no
    underscore, and the grouping callback only where [lookup] finds
    nothing. *)
Fixpoint set {V} (k : string) (v : V) (o : t V) : t V :=
  match o with
  | [] => [(k, v)]
  | (k', v') :: o' =>
      if String.eqb k k' then (k, v) :: o' else (k', v') :: set k v o'
  end.

Definition keys {V} (o : t V) : list string := map fst o.

(** The properties of [Object.prototype], which an object created by [{}]
    inherits: eleven functions and the accessor [__proto__], whose value is
    [Object.prototype] itself.  All of them are truthy, and none has a
    property [packages]. *)
Definition object_prototype : list string :=
  ["constructor"; "__defineGetter__"; "__defineSetter__"; "hasOwnProperty";
   "__lookupGetter__"; "__lookupSetter__"; "isPrototypeOf";
   "propertyIsEnumerable"; "toString"; "valueOf"; "__proto__";
   "toLocaleString"].

Definition inherited (k : string) : bool :=
  existsb (String.eqb k) object_prototype.

(** What the read [o[k]] finds. *)
Inductive Lookup (V : Type) :=
| Own (v : V)
| Inherited
| Undefined.

Arguments Own {V} v.
Arguments Inherited {V}.
Arguments Undefined {V}.

(** [o[k]]: an own property shadows the inherited member of its name. *)
Definition lookup {V} (k : string) (o : t V) : Lookup V :=
  match get k o with
  | Some v => Own v
  | None => if inherited k then Inherited else Undefined
  end.

Definition digit (c : ascii) : option N :=
  let n := N_of_ascii c in
  if ((48 <=? n) && (n <=? 57))%N then Some (n - 48)%N else None.

Fixpoint digits_value (acc : N) (s : string) : option N :=
  match s with
  | EmptyString => Some acc
  | String c s' =>
      match digit c with
      | Some d => digits_value (acc * 10 + d)%N s'
      | None => None
      end
  end.

(** An array index: the canonical decimal form of an integer below
    [2^32 - 1]. *)
Definition array_index (k : string) : option N :=
  match k with
  | EmptyString => None
  | String c s' =>
      if Ascii.eqb c "0"%char then
        match s' with EmptyString => Some 0%N | _ => None end
      else
        match digits_value 0 k with
        | Some n => if (n <=? 4294967294)%N then Some n else None
        | None => None
        end
  end.

Definition is_array_index {V} (e : string * V) : bool :=
  match array_index (fst e) with Some _ => true | None => false end.

Definition index_of {V} (e : string * V) : N :=
  match array_index (fst e) with Some n => n | None => 0%N end.

Fixpoint insert_by_index {V} (e : string * V) (l : list (string * V)) :=
  match l with
  | [] => [e]
  | e' :: l' =>
      if (index_of e <=? index_of e')%N then e :: l
      else e' :: insert_by_index e l'
  end.

Definition sort_by_index {V} (l : list (string * V)) :=
  fold_right insert_by_index [] l.

(** [Object.entries(o)]: array-index keys in ascending numeric order, then
    the other keys in creation order. *)
Definition entries {V} (o : t V) : list (string * V) :=
  sort_by_index (filter is_array_index o)
    ++ filter (fun e => negb (is_array_index e)) o.

End JsObject.

(** ** Data *)

(** The report [snyk.json]: projects, each with its findings.  A field the
    JSON lacks reads as [undefined]. *)
Module Snyk.

Record Finding := {
  id : option string;
  description : option string
}.

Record Project := {
  projectName : string;
  displayTargetFile : string;
  vulnerabilities : list Finding
}.

Definition Report := list Project.

End Snyk.

Record Package := {
  name : string;
  target : string
}.

Record Vulnerability := {
  description : string;
  packages : list Package;
  snykId : string
}.

(** ** GitHub *)

Inductive IssueState := open | closed.

Module Issue.

Record t := {
  number : positive;
  title : string;
  labels : list string;
  state : IssueState;
  body : string
}.

End Issue.

(** Parameters of [octokit.rest.issues.listForRepo]. *)
Module ListForRepo.

Record params := {
  owner : string;
  repo : string;
  per_page : nat;
  state : IssueState;
  labels : string
}.

End ListForRepo.

(** Parameters of [octokit.issues.create]. *)
Module IssuesCreate.

Record params := {
  owner : string;
  repo : string;
  title : string;
  labels : list string;
  body : string
}.

End IssuesCreate.

(** Parameters of [octokit.issues.update]; a field the call leaves out is
    [None]. *)
Module IssuesUpdate.

Record params := {
  owner : string;
  repo : string;
  issue_number : positive;
  title : option string;
  body : option string;
  state : option IssueState;
  labels : option (list string)
}.

End IssuesUpdate.

(** A request sent to GitHub; [List p n] asks for page [n]. *)
Inductive Call :=
| List (p : ListForRepo.params) (page : nat)
| Create (p : IssuesCreate.params)
| Update (p : IssuesUpdate.params).

(** ** GitHub's side of the protocol

    GitHub is an external collaborator of the script.  Its issues are kept
    newest first, the order in which it lists them. *)

(** The number of the next issue: one that no issue has yet. *)
Definition next_number (g : list Issue.t) : positive :=
  fold_right (fun i n => Pos.max (Pos.succ (Issue.number i)) n) 1%positive g.

(** Modelled from the spec: create-issue (section 6) adds an open issue
    with the title, labels and body of the request. *)
Definition github_create (p : IssuesCreate.params) (g : list Issue.t) :=
  {| Issue.number := next_number g;
     Issue.title := IssuesCreate.title p;
     Issue.labels := IssuesCreate.labels p;
     Issue.state := open;
     Issue.body := IssuesCreate.body p |} :: g.

Definition or_keep {A} (new : option A) (old : A) : A :=
  match new with Some a => a | None => old end.

(** Modelled from the spec: update-issue (section 6) replaces, in the issue
    of the given number, the fields the request carries and leaves the
    others as they are. *)
Definition patch (p : IssuesUpdate.params) (i : Issue.t) : Issue.t :=
  if Pos.eqb (Issue.number i) (IssuesUpdate.issue_number p) then
    {| Issue.number := Issue.number i;
       Issue.title := or_keep (IssuesUpdate.title p) (Issue.title i);
       Issue.labels := or_keep (IssuesUpdate.labels p) (Issue.labels i);
       Issue.state := or_keep (IssuesUpdate.state p) (Issue.state i);
       Issue.body := or_keep (IssuesUpdate.body p) (Issue.body i) |}
  else i.

Definition github_update (p : IssuesUpdate.params) (g : list Issue.t) :=
  map (patch p) g.

Definition github_step (c : Call) (g : list Issue.t) : list Issue.t :=
  match c with
  | List _ _ => g
  | Create p => github_create p g
  | Update p => github_update p g
  end.

Definition state_eqb (a b : IssueState) : bool :=
  match a, b with
  | open, open | closed, closed => true
  | _, _ => false
  end.

(** Modelled from the spec: the paginated list of issues by label and state
    (section 6) holds the issues in the given state that carry the label. *)
Definition listed (p : ListForRepo.params) (i : Issue.t) : bool :=
  state_eqb (Issue.state i) (ListForRepo.state p)
  && existsb (String.eqb (ListForRepo.labels p)) (Issue.labels i).

Definition cons_first {A} (x : A) (pages : list (list A)) : list (list A) :=
  match pages with
  | [] => [[x]]
  | page :: rest => (x :: page) :: rest
  end.

(** [paginate n room l]: [l] cut into pages, the first of at most [S room]
    items and the following ones of at most [S n]. *)
Fixpoint paginate {A} (n room : nat) (l : list A) : list (list A) :=
  match l with
  | [] => [[]]
  | x :: l' =>
      match room, l' with
      | O, _ :: _ => [x] :: paginate n n l'
      | O, [] => [[x]]
      | S room', _ => cons_first x (paginate n room' l')
      end
  end.

(** The pages GitHub serves for a list request, [per_page] issues each. *)
Definition github_pages (p : ListForRepo.params) (g : list Issue.t) :=
  paginate (pred (ListForRepo.per_page p)) (pred (ListForRepo.per_page p))
    (filter (listed p) g).

(** ** Exceptions *)

Inductive Exception :=
| TypeError (property : string)
    (* reading [property] of [undefined]; the wording of the message is the
       engine's *)
| ModuleNotFound (specifier : string)
| InheritedIssueNumber (member : string).
    (* an inherited member passed on as an issue number, see [main] *)

Inductive Result (A : Type) :=
| Returns (a : A)
| Throws (error : Exception).

Arguments Returns {A} a.
Arguments Throws {A} error.

(** [l.forEach(x => ...)] with a callback that updates a local variable and
    may throw: the first exception ends the loop. *)
Fixpoint forEach {A S} (f : S -> A -> Result S) (l : list A) (s : S)
  : Result S :=
  match l with
  | [] => Returns s
  | x :: l' =>
      match f s x with
      | Returns s' => forEach f l' s'
      | Throws error => Throws error
      end
  end.

(** ** The world and its monad *)

(** What standard error receives: a line of text, or the stack of an
    exception, whose text is the engine's. *)
Inductive ErrorOutput :=
| Text (line : string)
| Stack (error : Exception).

Record World := {
  stdout : list string;
  stderr : list ErrorOutput;
  calls : list Call;
  github : list Issue.t
}.

Definition M (A : Type) := World -> A * World.

Definition ret {A} (a : A) : M A := fun w => (a, w).

Definition bind {A B} (m : M A) (f : A -> M B) : M B :=
  fun w => let (a, w') := m w in f a w'.

Declare Scope monad_scope.
Delimit Scope monad_scope with monad.
Notation "x <- m ;; k" := (bind m (fun x => k))
  (at level 100, m at next level, right associativity) : monad_scope.
Notation "m ;; k" := (bind m (fun _ => k))
  (at level 100, right associativity) : monad_scope.
Local Open Scope monad_scope.

(** [for (const x of l) await f(x)] *)
Fixpoint forM_ {A} (l : list A) (f : A -> M unit) : M unit :=
  match l with
  | [] => ret tt
  | x :: l' => f x ;; forM_ l' f
  end.

(** A loop that updates a local variable. *)
Fixpoint foldM {A S} (f : S -> A -> M S) (l : list A) (s : S) : M S :=
  match l with
  | [] => ret s
  | x :: l' => s' <- f s x ;; foldM f l' s'
  end.

Definition console_log (line : string) : M unit :=
  fun w => (tt, {| stdout := stdout w ++ [line]; stderr := stderr w;
                   calls := calls w; github := github w |}).

(** A loop whose body may throw. *)
Fixpoint forT {A} (l : list A) (f : A -> M (Result unit)) : M (Result unit) :=
  match l with
  | [] => ret (Returns tt)
  | x :: l' =>
      r <- f x ;;
      match r with
      | Returns _ => forT l' f
      | Throws error => ret (Throws error)
      end
  end.

(** A call that does not throw. *)
Definition returns (m : M unit) : M (Result unit) :=
  m ;; ret (Returns tt).

Definition console_error (line : string) : M unit :=
  fun w => (tt, {| stdout := stdout w; stderr := stderr w ++ [Text line];
                   calls := calls w; github := github w |}).

(** [console.error(error.stack)] *)
Definition console_error_stack (error : Exception) : M unit :=
  fun w => (tt, {| stdout := stdout w; stderr := stderr w ++ [Stack error];
                   calls := calls w; github := github w |}).

(** A mutating request: recorded, and carried out by GitHub. *)
Definition request (c : Call) : M unit :=
  fun w => (tt, {| stdout := stdout w; stderr := stderr w;
                   calls := calls w ++ [c];
                   github := github_step c (github w) |}).

Definition octokit_issues_create (p : IssuesCreate.params) : M unit :=
  request (Create p).

Definition octokit_issues_update (p : IssuesUpdate.params) : M unit :=
  request (Update p).

(** [octokit.paginate.iterator(octokit.rest.issues.listForRepo, p)], read to
    its end: one request per page. *)
Definition octokit_paginate_iterator (p : ListForRepo.params)
  : M (list (list Issue.t)) :=
  fun w =>
    let pages := github_pages p (github w) in
    (pages,
     {| stdout := stdout w; stderr := stderr w;
        calls := calls w ++ map (List p) (seq 1 (List.length pages));
        github := github w |}).

(** ** The script *)

Definition GH_OWNER := "backstage".
Definition GH_REPO := "backstage".
Definition SNYK_GH_LABEL := "snyk-vulnerability".

(** The class [[A-Z0-9-:]] under the [i] flag. *)
Definition in_class (c : ascii) : bool :=
  let n := nat_of_ascii c in
  ((65 <=? n)%nat && (n <=? 90)%nat) || ((97 <=? n)%nat && (n <=? 122)%nat)
  || ((48 <=? n)%nat && (n <=? 57)%nat)
  || Ascii.eqb c "-"%char || Ascii.eqb c ":"%char.

(** The longest prefix of class characters, and what follows it. *)
Fixpoint span_class (s : string) : string * string :=
  match s with
  | EmptyString => (EmptyString, EmptyString)
  | String c s' =>
      if in_class c then
        let (tok, rest) := span_class s' in (String c tok, rest)
      else (EmptyString, s)
  end.

(** [/\[([A-Z0-9-:]+)]/i] tried at the first character of [s]: the capture.
    The character after the class run has to be the closing bracket, which
    is no class character, so giving back part of the run never helps. *)
Definition match_at (s : string) : option string :=
  match s with
  | String "["%char s' =>
      match span_class s' with
      | (String c tok, String "]"%char _) => Some (String c tok)
      | _ => None
      end
  | _ => None
  end.

(** [SNYK_ID_REGEX.exec(s)]: group 1 of the leftmost match. *)
Fixpoint SNYK_ID_REGEX_exec (s : string) : option string :=
  match match_at s with
  | Some tok => Some tok
  | None =>
      match s with
      | EmptyString => None
      | String _ s' => SNYK_ID_REGEX_exec s'
      end
  end.

Definition indexIssue (snykGithubIssueMap : JsObject.t positive)
  (issue : Issue.t) : M (JsObject.t positive) :=
  match SNYK_ID_REGEX_exec (Issue.title issue) with
  | Some (String c tok) =>
      ret (JsObject.set (String c tok) (Issue.number issue) snykGithubIssueMap)
  | _ =>
      console_log ("Unmatched Snyk ID for " ++ Issue.title issue) ;;
      ret snykGithubIssueMap
  end.

Definition fetchSnykGithubIssueMap : M (JsObject.t positive) :=
  pages <- octokit_paginate_iterator
             {| ListForRepo.owner := GH_OWNER;
                ListForRepo.repo := GH_REPO;
                ListForRepo.per_page := 100;
                ListForRepo.state := open;
                ListForRepo.labels := SNYK_GH_LABEL |} ;;
  foldM (fun snykGithubIssueMap issues =>
           foldM indexIssue issues snykGithubIssueMap)
        pages JsObject.empty.

Definition bullet (p : Package) : string :=
  "* [" ++ name p ++ "](" ++ target p ++ ")".

Definition generateIssueBody (vulnerability : Vulnerability) : string :=
  LF ++ "## Affecting Packages/Plugins" ++ LF ++ LF
  ++ String.concat LF (map bullet (packages vulnerability))
  ++ LF ++ LF ++ description vulnerability ++ LF.

(** The body of the grouping callback, for one finding of a project.  When
    [vulnerabilityStore[id]] is an inherited member the test is true, its
    [packages] is [undefined], and [.some] throws. *)
Definition groupFinding (projectName displayTargetFile : string)
  (vulnerabilityStore : JsObject.t Vulnerability) (finding : Snyk.Finding)
  : Result (JsObject.t Vulnerability) :=
  match Snyk.id finding, Snyk.description finding with
  | Some id, Some description' =>
      match JsObject.lookup id vulnerabilityStore with
      | JsObject.Own v =>
          if existsb (fun p => String.eqb (name p) projectName) (packages v)
          then Returns vulnerabilityStore
          else Returns
                 (JsObject.set id
                    {| description := description v;
                       packages := packages v
                                   ++ [{| name := projectName;
                                          target := displayTargetFile |}];
                       snykId := snykId v |}
                    vulnerabilityStore)
      | JsObject.Inherited => Throws (TypeError "some")
      | JsObject.Undefined =>
          Returns
            (JsObject.set id
               {| description := description';
                  snykId := id;
                  packages := [{| name := projectName;
                                  target := displayTargetFile |}] |}
               vulnerabilityStore)
      end
  | _, _ => Returns vulnerabilityStore
  end.

Definition groupProject (vulnerabilityStore : JsObject.t Vulnerability)
  (project : Snyk.Project) : Result (JsObject.t Vulnerability) :=
  forEach
    (groupFinding (Snyk.projectName project) (Snyk.displayTargetFile project))
    (Snyk.vulnerabilities project) vulnerabilityStore.

(** [vulnerabilityStore] once the report has been scanned, or the exception
    that ended the scan. *)
Definition vulnerabilityStore (synkJsonOutput : Snyk.Report)
  : Result (JsObject.t Vulnerability) :=
  forEach groupProject synkJsonOutput JsObject.empty.

Section Script.

(** ['dryrun' in argv] *)
Variable isDryRun : bool.

Definition createGithubIssue (vulnerability : Vulnerability) : M unit :=
  console_log ("Create Github Issue for Snyk Vulnerability "
               ++ snykId vulnerability) ;;
  forM_ (packages vulnerability)
    (fun p => console_log ("- " ++ name p ++ " [" ++ target p ++ "]")) ;;
  if isDryRun then ret tt
  else octokit_issues_create
         {| IssuesCreate.owner := GH_OWNER;
            IssuesCreate.repo := GH_REPO;
            IssuesCreate.title :=
              "Snyk vulnerability [" ++ snykId vulnerability ++ "]";
            IssuesCreate.labels := [SNYK_GH_LABEL; "help wanted"];
            IssuesCreate.body := generateIssueBody vulnerability |}.

Definition updateGithubIssue (githubIssueId : positive)
  (vulnerability : Vulnerability) : M unit :=
  console_log ("Update Github Issue #" ++ decimal githubIssueId
               ++ " for Snky Vulnerability " ++ snykId vulnerability) ;;
  if isDryRun then ret tt
  else octokit_issues_update
         {| IssuesUpdate.owner := GH_OWNER;
            IssuesUpdate.repo := GH_REPO;
            IssuesUpdate.issue_number := githubIssueId;
            IssuesUpdate.title := None;
            IssuesUpdate.body := Some (generateIssueBody vulnerability);
            IssuesUpdate.state := None;
            IssuesUpdate.labels := None |}.

Definition closeGithubIssue (githubIssueId : positive) : M unit :=
  console_log ("Closing Github Issue #" ++ decimal githubIssueId) ;;
  if isDryRun then ret tt
  else octokit_issues_update
         {| IssuesUpdate.owner := GH_OWNER;
            IssuesUpdate.repo := GH_REPO;
            IssuesUpdate.issue_number := githubIssueId;
            IssuesUpdate.title := None;
            IssuesUpdate.body := None;
            IssuesUpdate.state := Some closed;
            IssuesUpdate.labels := None |}.

(** [main]: the index is fetched, the report grouped, the grouped records
    walked and then the index.  In the first loop [snykGithubIssueMap[id]]
    could be an inherited member, which the source would pass on as issue
    number; what GitHub makes of it is not modelled, and it never happens:
    [id] is a key of the store, and grouping throws before it stores such a
    name (lemma [main_no_inherited_issue_number]). *)
Definition main (synkJsonOutput : Snyk.Report) : M (Result unit) :=
  snykGithubIssueMap <- fetchSnykGithubIssueMap ;;
  match vulnerabilityStore synkJsonOutput with
  | Throws error => ret (Throws error)
  | Returns store =>
      r <- forT (JsObject.entries store)
             (fun '(id, vulnerability) =>
                match JsObject.lookup id snykGithubIssueMap with
                | JsObject.Own githubIssueId =>
                    returns (updateGithubIssue githubIssueId vulnerability)
                | JsObject.Inherited => ret (Throws (InheritedIssueNumber id))
                | JsObject.Undefined =>
                    returns (createGithubIssue vulnerability)
                end) ;;
      match r with
      | Throws error => ret (Throws error)
      | Returns _ =>
          forM_ (JsObject.entries snykGithubIssueMap)
            (fun '(snykId, githubIssueId) =>
               match JsObject.lookup snykId store with
               | JsObject.Own _ | JsObject.Inherited => ret tt
               | JsObject.Undefined => closeGithubIssue githubIssueId
               end) ;;
          ret (Returns tt)
      end
  end.

(** The module from its first statement on.  [snyk_json] is the outcome of
    the hoisted import of [../snyk.json]: the report, or [None] when the
    module cannot be loaded, which ends the process before the token check
    is reached.  Then come the token check, the dry-run banner and
    [main().catch(...)].  The result is the exit code. *)
Definition script (snyk_json : option Snyk.Report)
  (GITHUB_TOKEN : option string) : M N :=
  match snyk_json with
  | None =>
      console_error_stack (ModuleNotFound "../snyk.json") ;;
      ret 1%N
  | Some synkJsonOutput =>
      match GITHUB_TOKEN with
      | None | Some EmptyString =>
          console_error
            "GITHUB_TOKEN is not set. Please provide a Github token" ;;
          ret 1%N
      | Some _ =>
          (if isDryRun then
             console_log
               "⚠️  Running in dryrun mode, no issues will be updated on Github ⚠️"
           else ret tt) ;;
          r <- main synkJsonOutput ;;
          match r with
          | Returns _ => ret 0%N
          | Throws error =>
              console_error_stack error ;;
              ret 1%N
          end
      end
  end.

End Script.

(** * Part II: the notions the specification speaks of *)

(** ** The reconciliation plan *)

Inductive Operation :=
| CREATE (vulnerability : Vulnerability)
| UPDATE (githubIssueId : positive) (vulnerability : Vulnerability)
| CLOSE (githubIssueId : positive).

(** The plan: the operations in the order in which [main] walks the
    grouped vulnerabilities and then the issue index, each with the
    identifier it is for.  An indexed identifier that is the name of an
    inherited member gets no line: [main] takes it for reported. *)
Definition plan (store : JsObject.t Vulnerability)
  (index : JsObject.t positive) : list (string * Operation) :=
  map (fun e =>
         (fst e,
          match JsObject.get (fst e) index with
          | Some githubIssueId => UPDATE githubIssueId (snd e)
          | None => CREATE (snd e)
          end))
      (JsObject.entries store)
  ++ flat_map (fun e =>
                 match JsObject.get (fst e) store with
                 | Some _ => []
                 | None =>
                     if JsObject.inherited (fst e) then []
                     else [(fst e, CLOSE (snd e))]
                 end)
              (JsObject.entries index).

Definition operations_for (id : string) (ops : list (string * Operation))
  : list Operation :=
  map snd (filter (fun e => String.eqb id (fst e)) ops).

(** The request an operation sends when the run is live. *)
Definition call_of (op : Operation) : Call :=
  match op with
  | CREATE v =>
      Create {| IssuesCreate.owner := "backstage";
                IssuesCreate.repo := "backstage";
                IssuesCreate.title := "Snyk vulnerability [" ++ snykId v ++ "]";
                IssuesCreate.labels := ["snyk-vulnerability"; "help wanted"];
                IssuesCreate.body := generateIssueBody v |}
  | UPDATE n v =>
      Update {| IssuesUpdate.owner := "backstage";
                IssuesUpdate.repo := "backstage";
                IssuesUpdate.issue_number := n;
                IssuesUpdate.title := None;
                IssuesUpdate.body := Some (generateIssueBody v);
                IssuesUpdate.state := None;
                IssuesUpdate.labels := None |}
  | CLOSE n =>
      Update {| IssuesUpdate.owner := "backstage";
                IssuesUpdate.repo := "backstage";
                IssuesUpdate.issue_number := n;
                IssuesUpdate.title := None;
                IssuesUpdate.body := None;
                IssuesUpdate.state := Some closed;
                IssuesUpdate.labels := None |}
  end.

(** The lines an operation logs, live or not. *)
Definition log_of (op : Operation) : list string :=
  match op with
  | CREATE v =>
      ("Create Github Issue for Snyk Vulnerability " ++ snykId v)%string
      :: map (fun p => ("- " ++ name p ++ " [" ++ target p ++ "]")%string)
           (packages v)
  | UPDATE n v =>
      [("Update Github Issue #" ++ decimal n ++ " for Snky Vulnerability "
        ++ snykId v)%string]
  | CLOSE n => [("Closing Github Issue #" ++ decimal n)%string]
  end.

(** What carrying out an operation does to the world. *)
Definition perform (isDryRun : bool) (w : World) (op : Operation) : World :=
  {| stdout := stdout w ++ log_of op;
     stderr := stderr w;
     calls := if isDryRun then calls w else calls w ++ [call_of op];
     github := if isDryRun then github w
               else github_step (call_of op) (github w) |}.

Definition is_mutation (c : Call) : bool :=
  match c with
  | List _ _ => false
  | Create _ | Update _ => true
  end.

(** ** The issue index *)

Definition listParams : ListForRepo.params :=
  {| ListForRepo.owner := "backstage";
     ListForRepo.repo := "backstage";
     ListForRepo.per_page := 100;
     ListForRepo.state := open;
     ListForRepo.labels := "snyk-vulnerability" |}.

(** The open issues that carry the fixed label, as GitHub lists them. *)
Definition labelled_open (g : list Issue.t) : list Issue.t :=
  filter (listed listParams) g.

(** The index built from a list of issues: a later issue with the same
    identifier replaces the number of an earlier one. *)
Definition issueIndex (issues : list Issue.t) : JsObject.t positive :=
  fold_left
    (fun index issue =>
       match SNYK_ID_REGEX_exec (Issue.title issue) with
       | Some id => JsObject.set id (Issue.number issue) index
       | None => index
       end)
    issues JsObject.empty.

Definition unmatched (issues : list Issue.t) : list string :=
  flat_map
    (fun issue =>
       match SNYK_ID_REGEX_exec (Issue.title issue) with
       | Some _ => []
       | None => [("Unmatched Snyk ID for " ++ Issue.title issue)%string]
       end)
    issues.

(** The identifiers read off the titles of a list of issues. *)
Definition identifiers (issues : list Issue.t) : list string :=
  flat_map
    (fun issue =>
       match SNYK_ID_REGEX_exec (Issue.title issue) with
       | Some id => [id]
       | None => []
       end)
    issues.

(** Modelled from the spec: the characters of an identifier, "uppercase
    letters, digits, and the [-]/[:] separators matched
    case-insensitively": the letters of either case, the digits and the two
    separators, written out. *)
Definition identifier_characters : string :=
  "ABCDEFGHIJKLMNOPQRSTUVWXYZabcdefghijklmnopqrstuvwxyz0123456789-:".

Definition identifier_character (c : ascii) : bool :=
  existsb (Ascii.eqb c) (list_ascii_of_string identifier_characters).

(** Modelled from the spec: a token, one or more identifier characters. *)
Definition identifier_token (s : string) : Prop :=
  s <> EmptyString
  /\ Forall (fun c => identifier_character c = true) (list_ascii_of_string s).

(** Modelled from the spec: [title] contains a bracketed token. *)
Definition contains_bracketed_token (title : string) : Prop :=
  exists pre tok post,
    title = (pre ++ "[" ++ tok ++ "]" ++ post)%string /\ identifier_token tok.

(** A token of the identifier pattern: one or more class characters. *)
Definition all_in_class (s : string) : bool :=
  forallb in_class (list_ascii_of_string s).

Definition is_token (s : string) : bool :=
  match s with
  | EmptyString => false
  | String _ _ => all_in_class s
  end.

(** ** Grouping *)

(** The findings [groupFinding] does not skip, in scan order, each with the
    package it was found in. *)
Definition occurrences (report : Snyk.Report)
  : list (string * string * Package) :=
  flat_map
    (fun project =>
       flat_map
         (fun finding =>
            match Snyk.id finding, Snyk.description finding with
            | Some id, Some d =>
                [(id, d, {| name := Snyk.projectName project;
                            target := Snyk.displayTargetFile project |})]
            | _, _ => []
            end)
         (Snyk.vulnerabilities project))
    report.

Definition occurrences_of (id : string) (report : Snyk.Report) :=
  filter (fun o => String.eqb id (fst (fst o))) (occurrences report).

(** A package list without repeated names: the first package of each name,
    in order of first appearance. *)
Fixpoint first_by_name (l : list Package) : list Package :=
  match l with
  | [] => []
  | p :: l' =>
      p :: filter (fun q => negb (String.eqb (name q) (name p)))
             (first_by_name l')
  end.

(** [groupFinding] on a finding that is not skipped. *)
Definition groupOccurrence (store : JsObject.t Vulnerability)
  (o : string * string * Package) : Result (JsObject.t Vulnerability) :=
  groupFinding (name (snd o)) (target (snd o)) store
    {| Snyk.id := Some (fst (fst o)); Snyk.description := Some (snd (fst o)) |}.

(** What [groupFinding] returns on a finding that is not skipped and whose
    identifier is not the name of an inherited member. *)
Definition addOccurrence (store : JsObject.t Vulnerability)
  (o : string * string * Package) : JsObject.t Vulnerability :=
  match JsObject.get (fst (fst o)) store with
  | Some v =>
      if existsb (fun p => String.eqb (name p) (name (snd o))) (packages v)
      then store
      else JsObject.set (fst (fst o))
             {| description := description v;
                packages := packages v ++ [snd o];
                snykId := snykId v |}
             store
  | None =>
      JsObject.set (fst (fst o))
        {| description := snd (fst o);
           snykId := fst (fst o);
           packages := [snd o] |}
        store
  end.

(** The grouped output of a report none of whose identifiers is the name of
    an inherited member. *)
Definition grouped (report : Snyk.Report) : JsObject.t Vulnerability :=
  fold_left addOccurrence (occurrences report) JsObject.empty.

(** Some finding that is not skipped bears the name of an inherited member
    as its identifier. *)
Definition names_inherited_member (report : Snyk.Report) : bool :=
  existsb (fun o => JsObject.inherited (fst (fst o))) (occurrences report).

(** [packages.push] unless a package of that name is there. *)
Definition push_new (ps : list Package) (q : Package) : list Package :=
  if existsb (fun p => String.eqb (name p) (name q)) ps then ps else ps ++ [q].

Definition name_absent (ps : list Package) (q : Package) : bool :=
  negb (existsb (fun p => String.eqb (name p) (name q)) ps).

Definition skipped (finding : Snyk.Finding) : bool :=
  match Snyk.id finding, Snyk.description finding with
  | Some _, Some _ => false
  | _, _ => true
  end.

(** The report without the findings that lack an id or a description. *)
Definition without_skipped (report : Snyk.Report) : Snyk.Report :=
  map (fun project =>
         {| Snyk.projectName := Snyk.projectName project;
            Snyk.displayTargetFile := Snyk.displayTargetFile project;
            Snyk.vulnerabilities :=
              filter (fun f => negb (skipped f)) (Snyk.vulnerabilities project) |})
      report.

Definition findings (report : Snyk.Report) : list Snyk.Finding :=
  flat_map Snyk.vulnerabilities report.

Definition has_id (id : string) (finding : Snyk.Finding) : bool :=
  match Snyk.id finding with
  | Some id' => String.eqb id id'
  | None => false
  end.

(** The first finding of the report with identifier [id]. *)
Definition first_finding (id : string) (report : Snyk.Report) :=
  find (has_id id) (findings report).

(** The first finding with identifier [id] that has a description. *)
Definition first_described_finding (id : string) (report : Snyk.Report) :=
  find (fun f => has_id id f && negb (skipped f)) (findings report).

(** The reading of C10 as it is written: the stored description is that of
    the first finding with the identifier. *)
Definition stored_description_is_first (report : Snyk.Report) : Prop :=
  forall store id v,
    vulnerabilityStore report = Returns store ->
    JsObject.get id store = Some v ->
    exists f, first_finding id report = Some f
              /\ Snyk.description f = Some (description v).

(** One package reports [X-1] twice: first without a description, then with
    one. *)
Definition report_undescribed_first : Snyk.Report :=
  [{| Snyk.projectName := "pkgA";
      Snyk.displayTargetFile := "lock1";
      Snyk.vulnerabilities :=
        [{| Snyk.id := Some "X-1"; Snyk.description := None |};
         {| Snyk.id := Some "X-1"; Snyk.description := Some "later" |}] |}].

(** ** Runs *)

Definition start (g : list Issue.t) : World :=
  {| stdout := []; stderr := []; calls := []; github := g |}.

(** GitHub's issues after a live run of [main] on [report]. *)
Definition github_after (report : Snyk.Report) (g : list Issue.t) :=
  github (snd (main false report (start g))).

(** The plan of a run that starts from the issues [g]: empty when grouping
    throws, as the exception ends [main] before its loops. *)
Definition plan_of (report : Snyk.Report) (g : list Issue.t) :=
  match vulnerabilityStore report with
  | Returns store => plan store (issueIndex (labelled_open g))
  | Throws _ => []
  end.

Definition is_update (op : Operation) : bool :=
  match op with
  | UPDATE _ _ => true
  | CREATE _ | CLOSE _ => false
  end.

(** ** The issue body *)

(** The bullet list of the body: one line per package, the package name a
    link to its target file, nothing escaped. *)
Fixpoint bullet_list (ps : list Package) : string :=
  match ps with
  | [] => ""
  | [p] => "* [" ++ name p ++ "](" ++ target p ++ ")"
  | p :: ps' =>
      "* [" ++ name p ++ "](" ++ target p ++ ")" ++ LF ++ bullet_list ps'
  end.

(** ** Two runs in a row *)

(** GitHub's issues once a list of operations has been sent. *)
Definition carry_out (ops : list Operation) (g : list Issue.t) :=
  fold_left (fun g op => github_step (call_of op) g) ops g.

(** The plan of the second of two live runs on the same report. *)
Definition second_plan (report : Snyk.Report) (g : list Issue.t) :=
  plan_of report (github_after report g).

(** The reading of C2 as it is written: the second run only updates. *)
Definition second_run_only_updates (report : Snyk.Report)
  (g : list Issue.t) : Prop :=
  forallb (fun e => is_update (snd e)) (second_plan report g) = true.

(** A licence finding, whose identifier holds a dot, and two open issues
    that both track [X-9], which the report no longer mentions. *)
Definition report_licence : Snyk.Report :=
  [{| Snyk.projectName := "foo";
      Snyk.displayTargetFile := "yarn.lock";
      Snyk.vulnerabilities :=
        [{| Snyk.id := Some "snyk:lic:npm:foo:GPL-3.0";
            Snyk.description := Some "GPL-3.0 license" |}] |}].

Definition issues_tracked_twice : list Issue.t :=
  [{| Issue.number := 2; Issue.title := "Snyk vulnerability [X-9]";
      Issue.labels := ["snyk-vulnerability"; "help wanted"];
      Issue.state := open; Issue.body := "" |};
   {| Issue.number := 1; Issue.title := "Snyk vulnerability [X-9]";
      Issue.labels := ["snyk-vulnerability"; "help wanted"];
      Issue.state := open; Issue.body := "" |}].

(** ** Sample inputs *)

Definition finding (id description : string) : Snyk.Finding :=
  {| Snyk.id := Some id; Snyk.description := Some description |}.

Definition project (projectName displayTargetFile : string)
  (vulnerabilities : list Snyk.Finding) : Snyk.Project :=
  {| Snyk.projectName := projectName;
     Snyk.displayTargetFile := displayTargetFile;
     Snyk.vulnerabilities := vulnerabilities |}.

Definition snyk_issue (number : positive) (id : string) : Issue.t :=
  {| Issue.number := number;
     Issue.title := "Snyk vulnerability [" ++ id ++ "]";
     Issue.labels := ["snyk-vulnerability"; "help wanted"];
     Issue.state := open;
     Issue.body := "" |}.

(** Scenario 1 of the specification. *)
Definition report_lodash : Snyk.Report :=
  [project "foo" "yarn.lock" [finding "SNYK-JS-LODASH-1234" "Prototype Pollution"]].

(** Scenario 2 of the specification. *)
Definition report_two_packages : Snyk.Report :=
  [project "pkgA" "lock1" [finding "X-1" "first"];
   project "pkgB" "lock2" [finding "X-1" "second"]].

(** Scenario 4 of the specification. *)
Definition report_x9 : Snyk.Report :=
  [project "pkgA" "lock1" [finding "X-9" "still there"]].

(** A finding whose identifier is the name of a member that every object
    inherits. *)
Definition report_constructor : Snyk.Report :=
  [project "foo" "yarn.lock" [finding "constructor" "Prototype Pollution"]].

(** Two open issues, one of which tracks the identifier [constructor]. *)
Definition issues_constructor : list Issue.t :=
  [snyk_issue 4 "constructor"; snyk_issue 3 "X-9"].

(** Three issues: one tracks [X-1], one tracks [X-9], one has a title
    without identifier. *)
Definition issues_sample : list Issue.t :=
  [snyk_issue 7 "X-9";
   {| Issue.number := 5; Issue.title := "Review the Snyk findings";
      Issue.labels := ["snyk-vulnerability"]; Issue.state := open;
      Issue.body := "" |};
   snyk_issue 3 "X-1"].

(** ** The token check *)

(** Modelled from the spec: the reading of C9 as it is written.  Without
    the token the script exits with code 1, and all it has done is to print
    its explanatory message: no other work came first. *)
Definition token_checked_first : Prop :=
  forall (isDryRun : bool) (snyk_json : option Snyk.Report) (w : World),
    script isDryRun snyk_json None w
    = (1%N,
       {| stdout := stdout w;
          stderr := stderr w
                    ++ [Text "GITHUB_TOKEN is not set. Please provide a Github token"];
          calls := calls w;
          github := github w |}).

(** ** Notions for the further properties *)

(** [s] holds an opening square bracket. *)
Definition has_bracket (s : string) : bool :=
  existsb (Ascii.eqb "["%char) (list_ascii_of_string s).

Definition is_close (op : Operation) : bool :=
  match op with
  | CLOSE _ => true
  | CREATE _ | UPDATE _ _ => false
  end.

(** The records a list of operations creates issues for. *)
Definition creates (ops : list Operation) : list Vulnerability :=
  flat_map (fun op => match op with CREATE v => [v] | _ => [] end) ops.

(** The issue number an operation addresses. *)
Definition addressed (op : Operation) : option positive :=
  match op with
  | CREATE _ => None
  | UPDATE n _ | CLOSE n => Some n
  end.




(** A request addresses an issue that GitHub listed: every request but an
    update does so trivially. *)
Definition addresses_listed (g : list Issue.t) (c : Call) : Prop :=
  match c with
  | Update p =>
      exists i, In i (labelled_open g)
                /\ Issue.number i = IssuesUpdate.issue_number p
  | List _ _ | Create _ => True
  end.

(** GitHub's issues after [n] live runs on the same report. *)
Definition runs (n : nat) (report : Snyk.Report) (g : list Issue.t) :=
  Nat.iter n (github_after report) g.

(** What an operation does to one issue that exists already. *)
Definition effect_on (op : Operation) (i : Issue.t) : Issue.t :=
  match call_of op with
  | Update p => patch p i
  | List _ _ | Create _ => i
  end.

Definition apply_all (ops : list Operation) (i : Issue.t) : Issue.t :=
  fold_left (fun i op => effect_on op i) ops i.

(** The record of the last UPDATE that addresses issue [n]. *)
Definition last_update (n : positive) (ops : list Operation)
  (before : option Vulnerability) : option Vulnerability :=
  fold_left
    (fun acc op =>
       match op with
       | UPDATE m v => if Pos.eqb n m then Some v else acc
       | CREATE _ | CLOSE _ => acc
       end)
    ops before.

(** The title of [issue] yields the identifier [id]. *)
Definition yields (id : string) (issue : Issue.t) : bool :=
  match SNYK_ID_REGEX_exec (Issue.title issue) with
  | Some id' => String.eqb id id'
  | None => false
  end.

(** The issue a CREATE for [v] opens under the number [n]. *)
Definition opened (n : positive) (v : Vulnerability) : Issue.t :=
  {| Issue.number := n;
     Issue.title := "Snyk vulnerability [" ++ snykId v ++ "]";
     Issue.labels := ["snyk-vulnerability"; "help wanted"];
     Issue.state := open;
     Issue.body := generateIssueBody v |}.

(** * Part III: proofs *)

(** ** Dictionaries *)

Section ObjectLaws.

Context {V : Type}.
Implicit Types (o : JsObject.t V) (k : string) (v : V).

Lemma get_set_same k v o : JsObject.get k (JsObject.set k v o) = Some v.
Proof.
  induction o as [|[k' v'] o IH]; simpl.
  - now rewrite String.eqb_refl.
  - destruct (String.eqb k k') eqn:E; simpl; now rewrite ?E, ?String.eqb_refl.
Qed.

Lemma get_set_other k k' v o :
  k' <> k -> JsObject.get k' (JsObject.set k v o) = JsObject.get k' o.
Proof.
  intros Hne. apply String.eqb_neq in Hne.
  induction o as [|[k0 v0] o IH]; simpl.
  - now rewrite Hne.
  - destruct (String.eqb k k0) eqn:E; simpl.
    + apply String.eqb_eq in E. subst k0. now rewrite Hne.
    + now rewrite IH.
Qed.

Lemma get_In_keys k o : JsObject.get k o <> None <-> In k (JsObject.keys o).
Proof.
  induction o as [|[k' v'] o IH]; simpl.
  - tauto.
  - destruct (String.eqb k k') eqn:E.
    + apply String.eqb_eq in E. subst. split; [auto | discriminate].
    + apply String.eqb_neq in E. rewrite IH.
      split; [auto | intros [H|H]; [congruence | assumption]].
Qed.

Lemma get_None_keys k o : JsObject.get k o = None <-> ~ In k (JsObject.keys o).
Proof.
  rewrite <- get_In_keys. destruct (JsObject.get k o).
  - split; [discriminate|]. intros H. exfalso. apply H. discriminate.
  - split; [|reflexivity]. intros _ H. now apply H.
Qed.

Lemma get_Some_In k v o : JsObject.get k o = Some v -> In (k, v) o.
Proof.
  induction o as [|[k' v'] o IH]; simpl; [discriminate|].
  destruct (String.eqb k k') eqn:E.
  - apply String.eqb_eq in E. intros [= ->]. subst. auto.
  - auto.
Qed.

Lemma In_keys k v o : In (k, v) o -> In k (JsObject.keys o).
Proof. intros H. change k with (fst (k, v)). now apply in_map. Qed.

Lemma In_get k v o :
  NoDup (JsObject.keys o) -> In (k, v) o -> JsObject.get k o = Some v.
Proof.
  induction o as [|[k' v'] o IH]; simpl; [tauto|].
  intros Hnd [H|H].
  - injection H as -> ->. now rewrite String.eqb_refl.
  - inversion Hnd as [|? ? Hnotin Hnd']; subst.
    destruct (String.eqb k k') eqn:E.
    + apply String.eqb_eq in E. subst. exfalso. eauto using In_keys.
    + auto.
Qed.

Lemma keys_set k v o :
  JsObject.keys (JsObject.set k v o)
  = match JsObject.get k o with
    | Some _ => JsObject.keys o
    | None => JsObject.keys o ++ [k]
    end.
Proof.
  induction o as [|[k' v'] o IH]; simpl; [reflexivity|].
  destruct (String.eqb k k') eqn:E; simpl.
  - apply String.eqb_eq in E. now subst.
  - rewrite IH. now destruct (JsObject.get k o).
Qed.

Lemma In_keys_set k k' v o :
  In k' (JsObject.keys (JsObject.set k v o))
  <-> k' = k \/ In k' (JsObject.keys o).
Proof.
  rewrite keys_set. destruct (JsObject.get k o) eqn:E.
  - split; [auto|]. intros [->|H]; [|assumption].
    apply get_In_keys. congruence.
  - rewrite in_app_iff. simpl. intuition.
Qed.

Lemma NoDup_keys_set k v o :
  NoDup (JsObject.keys o) -> NoDup (JsObject.keys (JsObject.set k v o)).
Proof.
  intros Hnd. rewrite keys_set. destruct (JsObject.get k o) eqn:E; [assumption|].
  apply get_None_keys in E.
  apply (Permutation_NoDup (l := k :: JsObject.keys o)).
  - apply Permutation_cons_append.
  - now constructor.
Qed.

Lemma insert_by_index_perm (e : string * V) l :
  Permutation (e :: l) (JsObject.insert_by_index e l).
Proof.
  induction l as [|e' l IH]; simpl; [reflexivity|].
  destruct (JsObject.index_of e <=? JsObject.index_of e')%N; [reflexivity|].
  rewrite perm_swap. now constructor.
Qed.

Lemma sort_by_index_perm (l : list (string * V)) :
  Permutation l (JsObject.sort_by_index l).
Proof.
  induction l as [|e l IH]; simpl; [constructor|].
  rewrite <- insert_by_index_perm. now constructor.
Qed.

Lemma filter_partition_perm (A : Type) (f : A -> bool) (l : list A) :
  Permutation l (filter f l ++ filter (fun x => negb (f x)) l).
Proof.
  induction l as [|x l IH]; simpl; [constructor|].
  destruct (f x); simpl.
  - now constructor.
  - rewrite <- Permutation_middle. now constructor.
Qed.

(** [Object.entries] lists every own property exactly once. *)
Lemma entries_perm o : Permutation o (JsObject.entries o).
Proof.
  unfold JsObject.entries. rewrite <- sort_by_index_perm.
  apply filter_partition_perm.
Qed.

Lemma In_entries e o : In e (JsObject.entries o) <-> In e o.
Proof.
  split; apply Permutation_in; [symmetry|]; apply entries_perm.
Qed.

Lemma NoDup_keys_entries o :
  NoDup (JsObject.keys o) -> NoDup (JsObject.keys (JsObject.entries o)).
Proof.
  apply Permutation_NoDup. unfold JsObject.keys.
  apply Permutation_map, entries_perm.
Qed.

End ObjectLaws.

(** ** Reads that see the inherited members *)

Lemma lookup_Undefined {V} (k : string) (o : JsObject.t V) :
  JsObject.lookup k o = JsObject.Undefined
  <-> JsObject.get k o = None /\ JsObject.inherited k = false.
Proof.
  unfold JsObject.lookup.
  destruct (JsObject.get k o), (JsObject.inherited k); split;
    try discriminate; try tauto; intros [H1 H2]; discriminate.
Qed.

Lemma lookup_not_inherited {V} (k : string) (o : JsObject.t V) :
  JsObject.inherited k = false ->
  JsObject.lookup k o
  = match JsObject.get k o with
    | Some v => JsObject.Own v
    | None => JsObject.Undefined
    end.
Proof. intros H. unfold JsObject.lookup. now rewrite H. Qed.

(** No capture of the pattern is [__proto__]: the script never assigns to
    that accessor. *)
Lemma inherited_token_letters k :
  JsObject.inherited k = true -> is_token k = true ->
  In k ["constructor"; "hasOwnProperty"; "isPrototypeOf";
        "propertyIsEnumerable"; "toString"; "valueOf"; "toLocaleString"].
Proof.
  unfold JsObject.inherited. rewrite existsb_exists.
  intros (k' & Hin & E) Htok. apply String.eqb_eq in E. subst k'.
  cbn [JsObject.object_prototype In] in Hin.
  repeat (destruct Hin as [<-|Hin]; [first [discriminate Htok | cbn; tauto]|]).
  destruct Hin.
Qed.

(** ** Counting the lines of a plan that belong to one identifier *)

Lemma filter_key_absent {V} (k : string) (l : list (string * V)) :
  ~ In k (map fst l) -> filter (fun e => String.eqb k (fst e)) l = [].
Proof.
  induction l as [|[k' v] l IH]; simpl; [reflexivity|].
  intros Hn. destruct (String.eqb k k') eqn:E.
  - apply String.eqb_eq in E. subst. tauto.
  - apply IH. tauto.
Qed.

Lemma filter_key_NoDup {V} (k : string) (v : V) (l : list (string * V)) :
  NoDup (map fst l) -> In (k, v) l ->
  filter (fun e => String.eqb k (fst e)) l = [(k, v)].
Proof.
  induction l as [|[k' v'] l IH]; simpl; [tauto|].
  intros Hnd Hin. inversion Hnd as [|? ? Hnotin Hnd']; subst.
  destruct Hin as [H|H].
  - injection H as -> ->. rewrite String.eqb_refl.
    now rewrite filter_key_absent.
  - destruct (String.eqb k k') eqn:E.
    + apply String.eqb_eq in E. subst. exfalso. eauto using In_keys.
    + auto.
Qed.

(** The entries of a dictionary with key [k]: the value stored, if any. *)
Lemma filter_entries {V} (k : string) (o : JsObject.t V) :
  NoDup (JsObject.keys o) ->
  filter (fun e => String.eqb k (fst e)) (JsObject.entries o)
  = match JsObject.get k o with Some v => [(k, v)] | None => [] end.
Proof.
  intros Hnd. destruct (JsObject.get k o) as [v|] eqn:E.
  - apply filter_key_NoDup.
    + now apply NoDup_keys_entries.
    + apply In_entries. now apply get_Some_In.
  - apply filter_key_absent. apply get_None_keys in E.
    intros H. apply E. unfold JsObject.keys in *.
    eapply Permutation_in; [|exact H].
    apply Permutation_map. symmetry. apply entries_perm.
Qed.

(** ** The identifier pattern *)

Lemma span_class_spec s :
  s = (fst (span_class s) ++ snd (span_class s))%string
  /\ all_in_class (fst (span_class s)) = true
  /\ match snd (span_class s) with
     | EmptyString => True
     | String c _ => in_class c = false
     end.
Proof.
  induction s as [|c s IH]; simpl.
  - auto.
  - destruct (in_class c) eqn:Ec.
    + destruct (span_class s) as [tok rest]. simpl in *.
      destruct IH as (IH1 & IH2 & IH3). repeat split.
      * now rewrite <- IH1.
      * unfold all_in_class in *. simpl. now rewrite Ec.
      * assumption.
    + simpl. auto.
Qed.

Lemma span_class_token tok rest :
  all_in_class tok = true ->
  match rest with EmptyString => True | String c _ => in_class c = false end ->
  span_class (tok ++ rest) = (tok, rest).
Proof.
  intros Htok Hrest. induction tok as [|c tok IH]; simpl.
  - destruct rest as [|c rest]; simpl; [reflexivity|]. now rewrite Hrest.
  - unfold all_in_class in Htok. simpl in Htok.
    apply andb_true_iff in Htok as [Hc Htok]. rewrite Hc.
    now rewrite (IH Htok).
Qed.

Lemma match_at_Some s tok :
  match_at s = Some tok ->
  is_token tok = true
  /\ exists post, s = ("[" ++ tok ++ "]" ++ post)%string.
Proof.
  unfold match_at. destruct s as [|c s]; [discriminate|].
  destruct (Ascii.eqb c "["%char) eqn:Ec.
  - apply Ascii.eqb_eq in Ec. subst c.
    destruct (span_class_spec s) as (Happ & Hcls & _).
    destruct (span_class s) as [[|c tok'] rest]; simpl in *; [discriminate|].
    destruct rest as [|r rest]; [discriminate|].
    destruct (Ascii.eqb r "]"%char) eqn:Er.
    + apply Ascii.eqb_eq in Er. subst r. intros [= <-]. split.
      * exact Hcls.
      * exists rest. simpl. now rewrite Happ.
    + apply Ascii.eqb_neq in Er.
      destruct r as [[] [] [] [] [] [] [] []]; try discriminate; congruence.
  - apply Ascii.eqb_neq in Ec.
    destruct c as [[] [] [] [] [] [] [] []]; try discriminate; congruence.
Qed.

Lemma match_at_token tok post :
  is_token tok = true ->
  match_at ("[" ++ tok ++ "]" ++ post) = Some tok.
Proof.
  intros Htok. destruct tok as [|c tok]; [discriminate|].
  simpl in Htok. change (match_at ("[" ++ String c tok ++ "]" ++ post))
    with (match span_class (String c tok ++ String "]" post) with
          | (String c0 tok0, String "]"%char _) => Some (String c0 tok0)
          | _ => None
          end).
  now rewrite span_class_token.
Qed.

(** A successful extraction returns a token that stands between brackets in
    the title. *)
Lemma exec_Some s tok :
  SNYK_ID_REGEX_exec s = Some tok ->
  is_token tok = true
  /\ exists pre post, s = (pre ++ "[" ++ tok ++ "]" ++ post)%string.
Proof.
  induction s as [|c s IH]; cbn [SNYK_ID_REGEX_exec].
  - discriminate.
  - destruct (match_at (String c s)) as [tok'|] eqn:Em.
    + intros [= ->]. apply match_at_Some in Em as (Htok & post & Hs).
      split; [assumption|]. exists EmptyString, post. exact Hs.
    + intros H. apply IH in H as (Htok & pre & post & ->).
      split; [assumption|]. now exists (String c pre), post.
Qed.

(** A title that holds a bracketed token yields some identifier. *)
Lemma exec_bracketed pre tok post :
  is_token tok = true ->
  exists id, SNYK_ID_REGEX_exec (pre ++ "[" ++ tok ++ "]" ++ post) = Some id.
Proof.
  intros Htok. induction pre as [|c pre IH].
  - exists tok. simpl append.
    destruct tok as [|t tok]; [discriminate|].
    pose proof (match_at_token (String t tok) post Htok) as Hm.
    simpl in Hm |- *. simpl. now rewrite Hm.
  - destruct IH as [id IH].
    change (String c pre ++ "[" ++ tok ++ "]" ++ post)%string
      with (String c (pre ++ "[" ++ tok ++ "]" ++ post)).
    cbn [SNYK_ID_REGEX_exec].
    destruct (match_at (String c (pre ++ "[" ++ tok ++ "]" ++ post)));
      eauto.
Qed.

Lemma exec_nonempty s : SNYK_ID_REGEX_exec s <> Some EmptyString.
Proof.
  intros H. apply exec_Some in H as [H _]. discriminate.
Qed.

(** The title [createGithubIssue] gives an issue is read back as the
    identifier it was built from, provided the identifier is a token. *)
Lemma exec_created_title id :
  is_token id = true ->
  SNYK_ID_REGEX_exec ("Snyk vulnerability [" ++ id ++ "]") = Some id.
Proof.
  intros Htok. pose proof (match_at_token id EmptyString Htok) as Hm.
  simpl in Hm |- *. now rewrite Hm.
Qed.

(** ** What the effectful functions do to the world *)

Lemma forM_console_log {A} (f : A -> string) (l : list A) (w : World) :
  forM_ l (fun x => console_log (f x)) w
  = (tt, {| stdout := stdout w ++ map f l; stderr := stderr w;
            calls := calls w; github := github w |}).
Proof.
  revert w. induction l as [|x l IH]; intros w.
  - simpl. unfold ret. rewrite app_nil_r. now destruct w.
  - cbn [forM_]. unfold bind. unfold console_log at 1. rewrite IH. simpl.
    now rewrite <- app_assoc.
Qed.

Lemma createGithubIssue_perform d v w :
  createGithubIssue d v w = (tt, perform d w (CREATE v)).
Proof.
  unfold createGithubIssue, bind. unfold console_log at 1.
  rewrite forM_console_log. unfold perform. simpl.
  rewrite <- app_assoc. now destruct d.
Qed.

Lemma updateGithubIssue_perform d n v w :
  updateGithubIssue d n v w = (tt, perform d w (UPDATE n v)).
Proof.
  unfold updateGithubIssue, bind, console_log, perform. now destruct d.
Qed.

Lemma closeGithubIssue_perform d n w :
  closeGithubIssue d n w = (tt, perform d w (CLOSE n)).
Proof.
  unfold closeGithubIssue, bind, console_log, perform. now destruct d.
Qed.

(** Carrying out a list of operations: the log, the calls, the issues. *)
Lemma stdout_fold_perform d ops w :
  stdout (fold_left (perform d) ops w) = stdout w ++ flat_map log_of ops.
Proof.
  revert w. induction ops as [|op ops IH]; intros w; simpl.
  - now rewrite app_nil_r.
  - rewrite IH. simpl. now rewrite <- app_assoc.
Qed.

Lemma stderr_fold_perform d ops w :
  stderr (fold_left (perform d) ops w) = stderr w.
Proof.
  revert w. induction ops as [|op ops IH]; intros w; simpl; [|rewrite IH];
    reflexivity.
Qed.

Lemma calls_fold_perform_live ops w :
  calls (fold_left (perform false) ops w) = calls w ++ map call_of ops.
Proof.
  revert w. induction ops as [|op ops IH]; intros w; simpl.
  - now rewrite app_nil_r.
  - rewrite IH. simpl. now rewrite <- app_assoc.
Qed.

Lemma calls_fold_perform_dry ops w :
  calls (fold_left (perform true) ops w) = calls w.
Proof.
  revert w. induction ops as [|op ops IH]; intros w; simpl; [|rewrite IH];
    reflexivity.
Qed.

Lemma github_fold_perform_live ops w :
  github (fold_left (perform false) ops w)
  = fold_left (fun g op => github_step (call_of op) g) ops (github w).
Proof.
  revert w. induction ops as [|op ops IH]; intros w; simpl; [|rewrite IH];
    reflexivity.
Qed.

Lemma github_fold_perform_dry ops w :
  github (fold_left (perform true) ops w) = github w.
Proof.
  revert w. induction ops as [|op ops IH]; intros w; simpl; [|rewrite IH];
    reflexivity.
Qed.

(** ** Building the index *)

Lemma concat_cons_first {A} (x : A) pages :
  List.concat (cons_first x pages) = x :: List.concat pages.
Proof. destruct pages; reflexivity. Qed.

(** Pagination loses no issue and keeps their order. *)
Lemma concat_paginate {A} n room (l : list A) : List.concat (paginate n room l) = l.
Proof.
  revert room. induction l as [|x l IH]; intros room; [reflexivity|].
  cbn [paginate]. destruct room as [|room].
  - destruct l as [|y l]; [reflexivity|].
    cbn [List.concat app]. now rewrite IH.
  - now rewrite concat_cons_first, IH.
Qed.

Lemma indexIssue_spec m issue w :
  indexIssue m issue w
  = (match SNYK_ID_REGEX_exec (Issue.title issue) with
     | Some id => JsObject.set id (Issue.number issue) m
     | None => m
     end,
     {| stdout := stdout w ++ unmatched [issue]; stderr := stderr w;
        calls := calls w; github := github w |}).
Proof.
  unfold indexIssue, unmatched. simpl.
  destruct (SNYK_ID_REGEX_exec (Issue.title issue)) as [[|c tok]|] eqn:E.
  - now apply exec_nonempty in E.
  - unfold ret. simpl. rewrite app_nil_r. now destruct w.
  - reflexivity.
Qed.

Lemma unmatched_app l1 l2 : unmatched (l1 ++ l2) = unmatched l1 ++ unmatched l2.
Proof. apply flat_map_app. Qed.

Lemma foldM_indexIssue issues m w :
  foldM indexIssue issues m w
  = (fold_left
       (fun index issue =>
          match SNYK_ID_REGEX_exec (Issue.title issue) with
          | Some id => JsObject.set id (Issue.number issue) index
          | None => index
          end)
       issues m,
     {| stdout := stdout w ++ unmatched issues; stderr := stderr w;
        calls := calls w; github := github w |}).
Proof.
  revert m w. induction issues as [|issue issues IH]; intros m w.
  - simpl. unfold ret. rewrite app_nil_r. now destruct w.
  - cbn [foldM]. unfold bind. rewrite indexIssue_spec, IH.
    cbn [stdout stderr calls github fold_left].
    rewrite <- app_assoc, <- unmatched_app. reflexivity.
Qed.

Lemma foldM_pages pages m w :
  foldM (fun index issues => foldM indexIssue issues index) pages m w
  = foldM indexIssue (List.concat pages) m w.
Proof.
  revert m w. induction pages as [|page pages IH]; intros m w; [reflexivity|].
  cbn [foldM List.concat]. unfold bind. rewrite !foldM_indexIssue.
  rewrite IH, foldM_indexIssue, fold_left_app.
  cbn [stdout stderr calls github].
  now rewrite unmatched_app, app_assoc.
Qed.

(** [fetchSnykGithubIssueMap]: one request per page, a log line per title
    without identifier, and the index of the listed issues. *)
Lemma fetchSnykGithubIssueMap_spec w :
  fetchSnykGithubIssueMap w
  = (issueIndex (labelled_open (github w)),
     {| stdout := stdout w ++ unmatched (labelled_open (github w));
        stderr := stderr w;
        calls := calls w
                 ++ map (List listParams)
                      (seq 1 (List.length (github_pages listParams (github w))));
        github := github w |}).
Proof.
  unfold fetchSnykGithubIssueMap, bind, octokit_paginate_iterator.
  rewrite foldM_pages, foldM_indexIssue.
  unfold github_pages. rewrite concat_paginate. reflexivity.
Qed.

Lemma forM_perform {A} d (f : A -> M unit) (op : A -> list Operation) l w :
  (forall x w, f x w = (tt, fold_left (perform d) (op x) w)) ->
  forM_ l f w = (tt, fold_left (perform d) (flat_map op l) w).
Proof.
  intros Hf. revert w. induction l as [|x l IH]; intros w; [reflexivity|].
  cbn [forM_ flat_map]. unfold bind. now rewrite Hf, IH, fold_left_app.
Qed.

Lemma forT_perform {A} d (f : A -> M (Result unit))
  (op : A -> list Operation) l w :
  (forall x w, In x l -> f x w = (Returns tt, fold_left (perform d) (op x) w)) ->
  forT l f w = (Returns tt, fold_left (perform d) (flat_map op l) w).
Proof.
  revert w. induction l as [|x l IH]; intros w Hf; [reflexivity|].
  cbn [forT flat_map]. unfold bind. rewrite Hf by now left.
  rewrite IH, fold_left_app; [reflexivity|].
  intros y w' Hy. apply Hf. now right.
Qed.

(** ** The index as a dictionary *)

Section IndexLaws.

Let step (index : JsObject.t positive) (issue : Issue.t) :=
  match SNYK_ID_REGEX_exec (Issue.title issue) with
  | Some id => JsObject.set id (Issue.number issue) index
  | None => index
  end.

Lemma index_fold_NoDup issues m :
  NoDup (JsObject.keys m) -> NoDup (JsObject.keys (fold_left step issues m)).
Proof.
  revert m. induction issues as [|i issues IH]; intros m Hm; [assumption|].
  simpl. apply IH. unfold step.
  destruct (SNYK_ID_REGEX_exec (Issue.title i)); [|assumption].
  now apply NoDup_keys_set.
Qed.

Lemma index_fold_keys issues m id :
  In id (JsObject.keys (fold_left step issues m))
  <-> In id (JsObject.keys m) \/ In id (identifiers issues).
Proof.
  revert m. induction issues as [|i issues IH]; intros m; simpl.
  - tauto.
  - rewrite IH. unfold step, identifiers. simpl.
    fold (identifiers issues).
    destruct (SNYK_ID_REGEX_exec (Issue.title i)) as [id'|]; simpl.
    + rewrite In_keys_set. intuition congruence.
    + tauto.
Qed.

Lemma index_fold_untouched issues m id :
  ~ In id (identifiers issues) ->
  JsObject.get id (fold_left step issues m) = JsObject.get id m.
Proof.
  revert m. induction issues as [|i issues IH]; intros m Hn; [reflexivity|].
  simpl. unfold identifiers in Hn. simpl in Hn. fold (identifiers issues) in Hn.
  rewrite in_app_iff in Hn. rewrite IH by tauto. unfold step.
  destruct (SNYK_ID_REGEX_exec (Issue.title i)) as [id'|]; [|reflexivity].
  apply get_set_other. intros ->. apply Hn. left. now left.
Qed.

Lemma index_fold_get issues m id n :
  JsObject.get id (fold_left step issues m) = Some n ->
  JsObject.get id m = Some n
  \/ exists i, In i issues /\ SNYK_ID_REGEX_exec (Issue.title i) = Some id
               /\ Issue.number i = n.
Proof.
  revert m. induction issues as [|i issues IH]; intros m H; [now left|].
  simpl in H. apply IH in H as [H|(i' & Hin & Hid & Hn)].
  - unfold step in H.
    destruct (SNYK_ID_REGEX_exec (Issue.title i)) as [id'|] eqn:E; [|now left].
    destruct (String.eqb id id') eqn:Eid.
    + apply String.eqb_eq in Eid. subst id'. rewrite get_set_same in H.
      injection H as <-. right. exists i. simpl. auto.
    + apply String.eqb_neq in Eid. rewrite get_set_other in H by assumption.
      now left.
  - right. exists i'. simpl. auto.
Qed.

Lemma index_fold_get_once issues m i id :
  (count_occ string_dec (identifiers issues) id <= 1)%nat -> In i issues ->
  SNYK_ID_REGEX_exec (Issue.title i) = Some id ->
  JsObject.get id (fold_left step issues m) = Some (Issue.number i).
Proof.
  revert m. induction issues as [|a issues IH]; intros m Hc Hin Hid; [easy|].
  simpl. unfold identifiers in Hc. simpl in Hc. fold (identifiers issues) in Hc.
  rewrite count_occ_app in Hc.
  destruct Hin as [->|Hin].
  - rewrite Hid in Hc. simpl in Hc.
    destruct (string_dec id id) as [_|Hne]; [|congruence].
    rewrite index_fold_untouched.
    + unfold step. rewrite Hid. apply get_set_same.
    + apply (count_occ_not_In string_dec). lia.
  - apply IH; [lia | assumption | assumption].
Qed.

End IndexLaws.

Lemma In_identifiers issues id :
  In id (identifiers issues)
  <-> exists i, In i issues /\ SNYK_ID_REGEX_exec (Issue.title i) = Some id.
Proof.
  unfold identifiers. rewrite in_flat_map. split.
  - intros (i & Hin & H). exists i. split; [assumption|].
    destruct (SNYK_ID_REGEX_exec (Issue.title i)); simpl in H; [|tauto].
    destruct H as [->|[]]. reflexivity.
  - intros (i & Hin & H). exists i. split; [assumption|]. rewrite H. now left.
Qed.

Lemma issueIndex_NoDup issues : NoDup (JsObject.keys (issueIndex issues)).
Proof. apply index_fold_NoDup. constructor. Qed.

Lemma issueIndex_keys issues id :
  In id (JsObject.keys (issueIndex issues)) <-> In id (identifiers issues).
Proof.
  unfold issueIndex. rewrite index_fold_keys. simpl. tauto.
Qed.

Lemma issueIndex_get issues id n :
  JsObject.get id (issueIndex issues) = Some n ->
  exists i, In i issues /\ SNYK_ID_REGEX_exec (Issue.title i) = Some id
            /\ Issue.number i = n.
Proof.
  intros H. apply index_fold_get in H as [H|H]; [discriminate|assumption].
Qed.

Lemma issueIndex_get_once issues i id :
  (count_occ string_dec (identifiers issues) id <= 1)%nat -> In i issues ->
  SNYK_ID_REGEX_exec (Issue.title i) = Some id ->
  JsObject.get id (issueIndex issues) = Some (Issue.number i).
Proof. apply index_fold_get_once. Qed.

Lemma In_labelled_open i g :
  In i (labelled_open g)
  <-> In i g /\ Issue.state i = open
      /\ In "snyk-vulnerability" (Issue.labels i).
Proof.
  unfold labelled_open. rewrite filter_In. unfold listed, listParams.
  cbn [ListForRepo.state ListForRepo.labels].
  rewrite andb_true_iff, existsb_exists. split.
  - intros (Hin & Hs & l & Hl & El). apply String.eqb_eq in El. subst l.
    destruct (Issue.state i); [auto | discriminate].
  - intros (Hin & Hs & Hl). rewrite Hs. repeat split; try assumption.
    exists "snyk-vulnerability". split; [assumption | reflexivity].
Qed.

(** ** Grouping *)

Lemma fold_left_flat_map {A B S} (f : S -> B -> S) (g : A -> list B) l s :
  fold_left f (flat_map g l) s = fold_left (fun s x => fold_left f (g x) s) l s.
Proof.
  revert s. induction l as [|x l IH]; intros s; [reflexivity|].
  simpl. now rewrite fold_left_app, IH.
Qed.

Lemma forEach_app {A S} (f : S -> A -> Result S) l1 l2 s :
  forEach f (l1 ++ l2) s
  = match forEach f l1 s with
    | Returns s' => forEach f l2 s'
    | Throws error => Throws error
    end.
Proof.
  revert s. induction l1 as [|x l1 IH]; intros s; [reflexivity|].
  cbn [app forEach]. destruct (f s x); [apply IH | reflexivity].
Qed.

Lemma forEach_flat_map {A B S} (f : S -> B -> Result S) (g : A -> list B) l s :
  forEach f (flat_map g l) s = forEach (fun s x => forEach f (g x) s) l s.
Proof.
  revert s. induction l as [|x l IH]; intros s; [reflexivity|].
  cbn [flat_map forEach]. rewrite forEach_app.
  destruct (forEach f (g x) s); [apply IH | reflexivity].
Qed.

Lemma forEach_ext {A S} (f g : S -> A -> Result S) l s :
  (forall s x, f s x = g s x) -> forEach f l s = forEach g l s.
Proof.
  intros H. revert s. induction l as [|x l IH]; intros s; [reflexivity|].
  cbn [forEach]. rewrite H. destruct (g s x); [apply IH | reflexivity].
Qed.

(** Grouping walks the findings that are not skipped, in scan order. *)
Lemma vulnerabilityStore_occurrences report :
  vulnerabilityStore report
  = forEach groupOccurrence (occurrences report) JsObject.empty.
Proof.
  unfold vulnerabilityStore, occurrences. rewrite forEach_flat_map.
  apply forEach_ext. intros s project. unfold groupProject.
  rewrite forEach_flat_map. generalize s. clear.
  induction (Snyk.vulnerabilities project) as [|f fs IH]; intros s;
    [reflexivity|].
  cbn [forEach]. unfold groupOccurrence, groupFinding at 1 3.
  destruct (Snyk.id f) as [i|], (Snyk.description f) as [d|];
    cbn [forEach fst snd name target Snyk.id Snyk.description];
    try apply IH.
  destruct (JsObject.lookup i s) as [v| |]; [|reflexivity|apply IH].
  destruct (existsb _ (packages v)); apply IH.
Qed.

Lemma occurrences_without_skipped report :
  occurrences (without_skipped report) = occurrences report.
Proof.
  unfold occurrences, without_skipped.
  induction report as [|project report IH]; [reflexivity|].
  simpl. rewrite IH. f_equal.
  induction (Snyk.vulnerabilities project) as [|f fs IHf]; [reflexivity|].
  simpl. unfold skipped at 1.
  destruct (Snyk.id f) eqn:Ei, (Snyk.description f) eqn:Ed; simpl;
    rewrite ?Ei, ?Ed, IHf; reflexivity.
Qed.

Lemma In_occurrences report id d p :
  In (id, d, p) (occurrences report)
  <-> exists project finding,
        In project report /\ In finding (Snyk.vulnerabilities project)
        /\ Snyk.id finding = Some id /\ Snyk.description finding = Some d
        /\ p = {| name := Snyk.projectName project;
                  target := Snyk.displayTargetFile project |}.
Proof.
  unfold occurrences. rewrite in_flat_map. split.
  - intros (project & Hp & H). apply in_flat_map in H as (f & Hf & H).
    exists project, f.
    destruct (Snyk.id f), (Snyk.description f); simpl in H; try tauto.
    destruct H as [[= -> -> ->]|[]]. auto.
  - intros (project & f & Hp & Hf & Hi & Hd & ->). exists project.
    split; [assumption|]. apply in_flat_map. exists f.
    split; [assumption|]. rewrite Hi, Hd. now left.
Qed.

Lemma addOccurrence_keys s o id :
  In id (JsObject.keys (addOccurrence s o))
  <-> In id (JsObject.keys s) \/ id = fst (fst o).
Proof.
  destruct o as [[i d] p]. unfold addOccurrence. simpl.
  destruct (JsObject.get i s) as [v|] eqn:E.
  - assert (Hi : In i (JsObject.keys s)) by (apply get_In_keys; congruence).
    destruct (existsb _ (packages v)).
    + split; [auto|]. now intros [H| ->].
    + rewrite In_keys_set. split; [intros [->|H]; auto|].
      intros [H| ->]; auto.
  - rewrite In_keys_set. tauto.
Qed.

Lemma addOccurrence_NoDup s o :
  NoDup (JsObject.keys s) -> NoDup (JsObject.keys (addOccurrence s o)).
Proof.
  intros Hs. destruct o as [[i d] p]. unfold addOccurrence. simpl.
  destruct (JsObject.get i s) as [v|].
  - destruct (existsb _ (packages v)); [assumption|].
    now apply NoDup_keys_set.
  - now apply NoDup_keys_set.
Qed.

Lemma fold_addOccurrence_NoDup occ s :
  NoDup (JsObject.keys s) ->
  NoDup (JsObject.keys (fold_left addOccurrence occ s)).
Proof.
  revert s. induction occ as [|o occ IH]; intros s Hs; [assumption|].
  simpl. apply IH. now apply addOccurrence_NoDup.
Qed.

Lemma fold_addOccurrence_keys occ s id :
  In id (JsObject.keys (fold_left addOccurrence occ s))
  <-> In id (JsObject.keys s) \/ In id (map (fun o => fst (fst o)) occ).
Proof.
  revert s. induction occ as [|o occ IH]; intros s; simpl.
  - tauto.
  - rewrite IH, addOccurrence_keys. intuition congruence.
Qed.

Lemma addOccurrence_get_other s o id :
  id <> fst (fst o) ->
  JsObject.get id (addOccurrence s o) = JsObject.get id s.
Proof.
  intros Hne. destruct o as [[i d] p]. unfold addOccurrence.
  simpl in *. destruct (JsObject.get i s) as [v|].
  - destruct (existsb _ (packages v)); [reflexivity|].
    now apply get_set_other.
  - now apply get_set_other.
Qed.

Lemma addOccurrence_get_same s d p id :
  JsObject.get id (addOccurrence s (id, d, p))
  = Some match JsObject.get id s with
         | Some v => {| description := description v;
                        packages := push_new (packages v) p;
                        snykId := snykId v |}
         | None => {| description := d; packages := [p]; snykId := id |}
         end.
Proof.
  destruct p as [pn pt]. unfold addOccurrence, push_new. simpl.
  destruct (JsObject.get id s) as [v|] eqn:E.
  - destruct (existsb _ (packages v)).
    + rewrite E. now destruct v.
    + apply get_set_same.
  - now rewrite get_set_same.
Qed.

(** The record stored under [id] once all occurrences have been added. *)
Lemma fold_addOccurrence_get occ s id :
  JsObject.get id (fold_left addOccurrence occ s)
  = let mine := filter (fun o => String.eqb id (fst (fst o))) occ in
    match JsObject.get id s with
    | Some v =>
        Some {| description := description v;
                packages := fold_left push_new (map snd mine) (packages v);
                snykId := snykId v |}
    | None =>
        match mine with
        | [] => None
        | o :: rest =>
            Some {| description := snd (fst o);
                    packages := fold_left push_new (map snd rest) [snd o];
                    snykId := id |}
        end
    end.
Proof.
  revert s. induction occ as [|[[i d] p] occ IH]; intros s.
  - simpl. destruct (JsObject.get id s) as [v|]; [now destruct v | reflexivity].
  - cbn [fold_left filter fst snd]. rewrite IH. cbv zeta.
    destruct (String.eqb id i) eqn:Ei.
    + apply String.eqb_eq in Ei. subst i. rewrite addOccurrence_get_same.
      destruct (JsObject.get id s) as [v|]; reflexivity.
    + apply String.eqb_neq in Ei.
      now rewrite addOccurrence_get_other by assumption.
Qed.

Lemma filter_filter {A} (f g : A -> bool) l :
  filter f (filter g l) = filter (fun x => g x && f x) l.
Proof.
  induction l as [|x l IH]; simpl; [reflexivity|].
  destruct (g x); simpl; [destruct (f x)|]; now rewrite IH.
Qed.

Lemma fold_push_new qs ps :
  fold_left push_new qs ps = ps ++ filter (name_absent ps) (first_by_name qs).
Proof.
  revert ps. induction qs as [|q qs IH]; intros ps; simpl.
  - now rewrite app_nil_r.
  - rewrite IH. unfold push_new, name_absent at 2.
    destruct (existsb (fun p => String.eqb (name p) (name q)) ps) eqn:E; simpl.
    + f_equal. rewrite filter_filter. apply filter_ext_in. intros x _.
      unfold name_absent.
      destruct (existsb (fun p => String.eqb (name p) (name x)) ps) eqn:Ex;
        [now rewrite andb_false_r|].
      rewrite andb_true_r. simpl.
      destruct (String.eqb (name x) (name q)) eqn:Exq; [|reflexivity].
      apply String.eqb_eq in Exq. rewrite Exq in Ex. congruence.
    + rewrite <- app_assoc. simpl. do 2 f_equal. rewrite filter_filter.
      apply filter_ext. intros x. unfold name_absent.
      rewrite existsb_app. simpl. rewrite orb_false_r, negb_orb.
      rewrite andb_comm. f_equal. f_equal. apply String.eqb_sym.
Qed.

Lemma fold_push_new_first p qs :
  fold_left push_new qs [p] = first_by_name (p :: qs).
Proof.
  rewrite fold_push_new. simpl. f_equal. apply filter_ext. intros x.
  unfold name_absent. simpl. rewrite orb_false_r. f_equal. apply String.eqb_sym.
Qed.

Lemma In_first_by_name p l : In p (first_by_name l) -> In p l.
Proof.
  induction l as [|q l IH]; simpl; [tauto|].
  rewrite filter_In. intuition.
Qed.

Lemma first_by_name_NoDup l : NoDup (map name (first_by_name l)).
Proof.
  induction l as [|p l IH]; simpl; constructor.
  - rewrite in_map_iff. intros (q & Hn & Hq). apply filter_In in Hq as [_ Hq].
    rewrite Hn, String.eqb_refl in Hq. discriminate.
  - clear -IH. induction (first_by_name l) as [|q l' IH']; simpl; [constructor|].
    inversion IH as [|? ? Hnotin Hnd]; subst.
    destruct (negb (String.eqb (name q) (name p))); simpl; [|auto].
    constructor; [|auto].
    rewrite in_map_iff in *. intros (x & Hx & Hin). apply Hnotin.
    exists x. apply filter_In in Hin. tauto.
Qed.

(** Every name of the list is the name of a package that is kept. *)
Lemma first_by_name_covers l p :
  In p l -> exists q, In q (first_by_name l) /\ name q = name p.
Proof.
  induction l as [|a l IH]; simpl; [tauto|].
  intros [->|Hin]; [eauto|].
  destruct (IH Hin) as (q & Hq & Hn).
  destruct (String.eqb (name q) (name a)) eqn:E.
  - apply String.eqb_eq in E. exists a. split; [auto | congruence].
  - exists q. split; [|assumption]. right. apply filter_In. now rewrite E.
Qed.

(** The record the grouped store holds for [id]. *)
Lemma grouped_get report id :
  JsObject.get id (grouped report)
  = match occurrences_of id report with
    | [] => None
    | o :: rest =>
        Some {| description := snd (fst o);
                packages := first_by_name (map snd (o :: rest));
                snykId := id |}
    end.
Proof.
  unfold grouped. rewrite fold_addOccurrence_get.
  cbv zeta. cbn [JsObject.get JsObject.empty]. unfold occurrences_of.
  destruct (filter _ (occurrences report)) as [|o rest]; [reflexivity|].
  now rewrite fold_push_new_first.
Qed.

Lemma grouped_NoDup report : NoDup (JsObject.keys (grouped report)).
Proof. apply fold_addOccurrence_NoDup. constructor. Qed.

Lemma grouped_snykId report id v : In (id, v) (grouped report) -> snykId v = id.
Proof.
  intros H. apply In_get in H; [|apply grouped_NoDup].
  rewrite grouped_get in H.
  destruct (occurrences_of id report); [discriminate|].
  now injection H as <-.
Qed.

Lemma grouped_keys report id :
  In id (JsObject.keys (grouped report))
  <-> In id (map (fun o => fst (fst o)) (occurrences report)).
Proof.
  unfold grouped. rewrite fold_addOccurrence_keys. simpl. tauto.
Qed.

(** [groupFinding] on a store that holds no inherited name: it throws on
    such a name and adds the occurrence otherwise. *)
Lemma groupOccurrence_spec s o :
  (forall k, In k (JsObject.keys s) -> JsObject.inherited k = false) ->
  groupOccurrence s o
  = if JsObject.inherited (fst (fst o)) then Throws (TypeError "some")
    else Returns (addOccurrence s o).
Proof.
  intros Hs. destruct o as [[i d] p].
  unfold groupOccurrence, groupFinding, addOccurrence, JsObject.lookup.
  cbn [fst snd Snyk.id Snyk.description].
  destruct (JsObject.get i s) as [v|] eqn:E.
  - rewrite (Hs i) by (apply get_In_keys; congruence).
    destruct (existsb _ (packages v)); [reflexivity|]. now destruct p.
  - destruct (JsObject.inherited i); [reflexivity|]. now destruct p.
Qed.

Lemma forEach_groupOccurrence occ s :
  (forall k, In k (JsObject.keys s) -> JsObject.inherited k = false) ->
  forEach groupOccurrence occ s
  = if existsb (fun o => JsObject.inherited (fst (fst o))) occ
    then Throws (TypeError "some")
    else Returns (fold_left addOccurrence occ s).
Proof.
  revert s. induction occ as [|o occ IH]; intros s Hs; [reflexivity|].
  cbn [forEach existsb fold_left]. rewrite groupOccurrence_spec by assumption.
  destruct (JsObject.inherited (fst (fst o))) eqn:E; [reflexivity|].
  cbn [orb]. apply IH. intros k Hk. apply addOccurrence_keys in Hk as [Hk| ->];
    [now apply Hs | exact E].
Qed.

(** Grouping throws when a finding that is not skipped bears the name of an
    inherited member, and returns the grouped output otherwise. *)
Lemma vulnerabilityStore_spec report :
  vulnerabilityStore report
  = if names_inherited_member report then Throws (TypeError "some")
    else Returns (grouped report).
Proof.
  rewrite vulnerabilityStore_occurrences. apply forEach_groupOccurrence.
  intros k [].
Qed.

Lemma vulnerabilityStore_Returns report store :
  vulnerabilityStore report = Returns store
  <-> names_inherited_member report = false /\ store = grouped report.
Proof.
  rewrite vulnerabilityStore_spec.
  destruct (names_inherited_member report); split.
  - discriminate.
  - now intros [? _].
  - now intros [= <-].
  - now intros [_ ->].
Qed.

(** The store holds no inherited name. *)
Lemma store_not_inherited report store k :
  vulnerabilityStore report = Returns store ->
  In k (JsObject.keys store) -> JsObject.inherited k = false.
Proof.
  intros H Hk. apply vulnerabilityStore_Returns in H as [Hn ->].
  apply grouped_keys in Hk. apply in_map_iff in Hk as (o & <- & Ho).
  unfold names_inherited_member in Hn.
  destruct (JsObject.inherited (fst (fst o))) eqn:E; [|reflexivity].
  assert (existsb (fun o => JsObject.inherited (fst (fst o)))
            (occurrences report) = true)
    by (apply existsb_exists; eauto).
  congruence.
Qed.

Lemma store_NoDup report store :
  vulnerabilityStore report = Returns store -> NoDup (JsObject.keys store).
Proof.
  intros H. apply vulnerabilityStore_Returns in H as [_ ->].
  apply grouped_NoDup.
Qed.

Lemma store_snykId report store id v :
  vulnerabilityStore report = Returns store ->
  In (id, v) store -> snykId v = id.
Proof.
  intros H. apply vulnerabilityStore_Returns in H as [_ ->].
  apply grouped_snykId.
Qed.

(** Both dictionaries of a run have distinct keys. *)
Ltac keys_distinct :=
  first [apply grouped_NoDup | apply issueIndex_NoDup
        | eapply store_NoDup; eassumption | assumption].

(** ** The run *)

(** [main] fetches the index; then the exception of the grouping ends it,
    or it carries out the plan. *)
Lemma main_spec d report w :
  main d report w
  = match vulnerabilityStore report with
    | Returns store =>
        (Returns tt,
         fold_left (perform d)
           (map snd (plan store (issueIndex (labelled_open (github w)))))
           (snd (fetchSnykGithubIssueMap w)))
    | Throws error => (Throws error, snd (fetchSnykGithubIssueMap w))
    end.
Proof.
  unfold main, bind. rewrite fetchSnykGithubIssueMap_spec. cbn [snd].
  destruct (vulnerabilityStore report) as [store|error] eqn:Hstore;
    [|reflexivity].
  unfold plan. rewrite map_app, fold_left_app.
  set (index := issueIndex (labelled_open (github w))).
  erewrite (forT_perform d _
              (fun e => [match JsObject.get (fst e) index with
                         | Some n => UPDATE n (snd e)
                         | None => CREATE (snd e)
                         end])).
  2:{ intros [id v] w' Hin. cbn [fst snd].
      rewrite lookup_not_inherited.
      - destruct (JsObject.get id index); unfold returns, bind, ret.
        + now rewrite updateGithubIssue_perform.
        + now rewrite createGithubIssue_perform.
      - apply (store_not_inherited report store); [assumption|].
        apply (proj1 (In_entries _ _)) in Hin. eauto using In_keys. }
  erewrite (forM_perform d _
              (fun e => match JsObject.get (fst e) store with
                        | Some _ => []
                        | None => if JsObject.inherited (fst e) then []
                                  else [CLOSE (snd e)]
                        end)).
  2:{ intros [id n] w'. cbn [fst snd]. unfold JsObject.lookup.
      destruct (JsObject.get id store); [reflexivity|].
      destruct (JsObject.inherited id); [reflexivity|].
      apply closeGithubIssue_perform. }
  unfold ret. f_equal. f_equal.
  - clear. induction (JsObject.entries index) as [|e l IH]; simpl;
      [reflexivity|]. rewrite map_app, IH.
    destruct (JsObject.get (fst e) store); [reflexivity|].
    now destruct (JsObject.inherited (fst e)).
  - f_equal. clear. induction (JsObject.entries store) as [|e l IH]; simpl;
      [reflexivity|]. now rewrite IH.
Qed.

(** The world after [main]: the index fetched, the plan carried out. *)
Lemma main_world d report w :
  snd (main d report w)
  = fold_left (perform d) (map snd (plan_of report (github w)))
      (snd (fetchSnykGithubIssueMap w)).
Proof.
  rewrite main_spec. unfold plan_of.
  now destruct (vulnerabilityStore report).
Qed.

(** How [main] ends: with the exception of the grouping, if any. *)
Lemma main_result d report w :
  fst (main d report w)
  = match vulnerabilityStore report with
    | Returns _ => Returns tt
    | Throws error => Throws error
    end.
Proof. rewrite main_spec. now destruct (vulnerabilityStore report). Qed.

(** [main] never passes an inherited member on as an issue number. *)
Lemma main_no_inherited_issue_number d report w member :
  fst (main d report w) <> Throws (InheritedIssueNumber member).
Proof.
  rewrite main_result, vulnerabilityStore_spec.
  destruct (names_inherited_member report); discriminate.
Qed.

(** * Part IV: the claims *)

(** ** Grouping (C3, C10) *)

(** C3 fails on the code: a finding with a description whose identifier is
    the name of a member that every object inherits ([constructor],
    [toString], ...) does not appear in the grouped output.  The test
    [vulnerabilityStore[id]] finds the inherited member, reading [.some] of
    its missing [packages] throws, and there is no grouped output at all:
    the run lists the issues, prints the stack of the [TypeError] and exits
    with code 1. *)
Theorem C3_inherited_name_throws :
  vulnerabilityStore report_constructor = Throws (TypeError "some")
  /\ script false (Some report_constructor) (Some "token") (start [])
     = (1%N,
        {| stdout := [];
           stderr := [Stack (TypeError "some")];
           calls := [List listParams 1];
           github := [] |}).
Proof. split; vm_compute; reflexivity. Qed.

Lemma occurrences_app r1 r2 :
  occurrences (r1 ++ r2) = occurrences r1 ++ occurrences r2.
Proof. apply flat_map_app. Qed.

(** The first occurrence of an identifier is the first finding with that
    identifier that is not skipped. *)
Lemma first_described_occurrence id report :
  first_described_finding id report
  = match occurrences_of id report with
    | [] => None
    | o :: _ => Some {| Snyk.id := Some id;
                        Snyk.description := Some (snd (fst o)) |}
    end.
Proof.
  unfold first_described_finding, occurrences_of, findings, occurrences.
  induction report as [|project report IH]; [reflexivity|].
  cbn [flat_map].
  induction (Snyk.vulnerabilities project) as [|f fs IHf]; [exact IH|].
  cbn [flat_map app find]. rewrite <- app_assoc, filter_app.
  unfold has_id at 1, skipped at 1.
  destruct f as [[i|] [d|]]; cbn [Snyk.id Snyk.description app filter];
    rewrite ?andb_false_r; try exact IHf.
  cbn [fst negb]. rewrite andb_true_r.
  destruct (String.eqb id i) eqn:E; [|exact IHf].
  apply String.eqb_eq in E. now subst i.
Qed.

Lemma names_inherited_member_app r1 r2 :
  names_inherited_member (r1 ++ r2)
  = names_inherited_member r1 || names_inherited_member r2.
Proof.
  unfold names_inherited_member. now rewrite occurrences_app, existsb_app.
Qed.

(** C10, as written, fails: when the first finding with an identifier has no
    description it is skipped, and the stored description is that of a later
    finding. *)
Lemma C10_counterexample :
  ~ stored_description_is_first report_undescribed_first.
Proof.
  intros H.
  destruct (H [("X-1", {| description := "later";
                          packages := [{| name := "pkgA"; target := "lock1" |}];
                          snykId := "X-1" |})]
              "X-1"
              {| description := "later";
                 packages := [{| name := "pkgA"; target := "lock1" |}];
                 snykId := "X-1" |} eq_refl eq_refl) as (f & Hf & Hd).
  vm_compute in Hf. injection Hf as <-. discriminate.
Qed.

(** C10 (amended): for every identifier in the grouped output, the stored
    description is the description of the first finding with that identifier
    that carries a description, in report scan order; findings that come
    later in the report never change it: whenever the report is extended,
    the grouped output of the extended report holds the same description
    for the identifier (and there is such an output unless a finding added
    bears the name of an inherited member, on which grouping throws). *)
Theorem C10_first_description (report : Snyk.Report)
  (store : JsObject.t Vulnerability) (id : string) (v : Vulnerability) :
  vulnerabilityStore report = Returns store ->
  JsObject.get id store = Some v ->
  (exists f, first_described_finding id report = Some f
             /\ Snyk.description f = Some (description v))
  /\ forall later,
       match vulnerabilityStore (report ++ later) with
       | Returns store' =>
           exists v', JsObject.get id store' = Some v'
                      /\ description v' = description v
       | Throws _ => names_inherited_member later = true
       end.
Proof.
  intros Hstore H. apply vulnerabilityStore_Returns in Hstore as [Hn ->].
  rewrite grouped_get in H.
  destruct (occurrences_of id report) as [|o rest] eqn:E; [discriminate|].
  injection H as <-. split.
  - rewrite first_described_occurrence, E. eauto.
  - intros later. rewrite vulnerabilityStore_spec, names_inherited_member_app, Hn.
    cbn [orb]. destruct (names_inherited_member later); [reflexivity|].
    rewrite grouped_get.
    unfold occurrences_of in *. rewrite occurrences_app, filter_app, E.
    cbn [app]. eauto.
Qed.

(** The amended C10 at the report above: the description stored for [X-1]
    is that of its second finding, the first one that has a description. *)
Lemma C10_first_description_witness :
  (exists f, first_described_finding "X-1" report_undescribed_first = Some f
             /\ Snyk.description f = Some "later")
  /\ forall later,
       match vulnerabilityStore (report_undescribed_first ++ later) with
       | Returns store' =>
           exists v', JsObject.get "X-1" store' = Some v'
                      /\ description v' = "later"
       | Throws _ => names_inherited_member later = true
       end.
Proof.
  exact (C10_first_description report_undescribed_first
           [("X-1", {| description := "later";
                       packages := [{| name := "pkgA"; target := "lock1" |}];
                       snykId := "X-1" |})]
           "X-1"
           {| description := "later";
              packages := [{| name := "pkgA"; target := "lock1" |}];
              snykId := "X-1" |} eq_refl eq_refl).
Defined.

(** ** The plan and its execution (C1, C5) *)

Lemma filter_map_key {V W} (k : string) (F : string * V -> W)
  (l : list (string * V)) :
  filter (fun e => String.eqb k (fst e)) (map (fun e => (fst e, F e)) l)
  = map (fun e => (fst e, F e)) (filter (fun e => String.eqb k (fst e)) l).
Proof.
  induction l as [|e l IH]; simpl; [reflexivity|].
  destruct (String.eqb k (fst e)); simpl; now rewrite IH.
Qed.

Lemma filter_flat_map_key {V W} (k : string) (G : string * V -> list W)
  (l : list (string * V)) :
  filter (fun e => String.eqb k (fst e))
    (flat_map (fun e => map (pair (fst e)) (G e)) l)
  = flat_map (fun e => map (pair (fst e)) (G e))
      (filter (fun e => String.eqb k (fst e)) l).
Proof.
  induction l as [|e l IH]; simpl; [reflexivity|].
  rewrite filter_app, IH.
  destruct (String.eqb k (fst e)) eqn:E; simpl; f_equal.
  - induction (G e) as [|x xs IHx]; simpl; [reflexivity|].
    now rewrite E, IHx.
  - induction (G e) as [|x xs IHx]; simpl; [reflexivity|].
    now rewrite E, IHx.
Qed.

Lemma is_mutation_call_of ops :
  filter is_mutation (map call_of ops) = map call_of ops.
Proof.
  induction ops as [|op ops IH]; simpl; [reflexivity|].
  rewrite IH. now destruct op.
Qed.

Lemma is_mutation_List p l : filter is_mutation (map (List p) l) = [].
Proof. induction l; simpl; auto. Qed.

(** The mutating calls of a live run are those of its plan, in order. *)
Lemma main_live_calls report g :
  filter is_mutation (calls (snd (main false report (start g))))
  = map call_of (map snd (plan_of report g)).
Proof.
  rewrite main_world. rewrite calls_fold_perform_live.
  rewrite fetchSnykGithubIssueMap_spec. cbn [snd calls start github app].
  now rewrite filter_app, is_mutation_List, is_mutation_call_of.
Qed.

Lemma main_live_github report g :
  github_after report g
  = fold_left (fun g op => github_step (call_of op) g)
      (map snd (plan_of report g)) g.
Proof.
  unfold github_after. rewrite main_world.
  rewrite github_fold_perform_live.
  now rewrite fetchSnykGithubIssueMap_spec.
Qed.

Lemma main_stdout d report g :
  stdout (snd (main d report (start g)))
  = unmatched (labelled_open g) ++ flat_map log_of (map snd (plan_of report g)).
Proof.
  rewrite main_world. rewrite stdout_fold_perform.
  now rewrite fetchSnykGithubIssueMap_spec.
Qed.

Lemma main_stderr d report w : stderr (snd (main d report w)) = stderr w.
Proof.
  rewrite main_world, stderr_fold_perform.
  now rewrite fetchSnykGithubIssueMap_spec.
Qed.

Lemma plan_of_Returns report store g :
  vulnerabilityStore report = Returns store ->
  plan_of report g = plan store (issueIndex (labelled_open g)).
Proof. intros H. unfold plan_of. now rewrite H. Qed.

(** The lines of a plan that belong to one identifier. *)
Lemma operations_for_plan store index id :
  NoDup (JsObject.keys store) -> NoDup (JsObject.keys index) ->
  operations_for id (plan store index)
  = match JsObject.get id store, JsObject.get id index with
    | Some v, None => [CREATE v]
    | Some v, Some n => [UPDATE n v]
    | None, Some n => if JsObject.inherited id then [] else [CLOSE n]
    | None, None => []
    end.
Proof.
  intros Hs Hi. unfold operations_for, plan.
  rewrite filter_app, map_app.
  rewrite (filter_map_key id
             (fun e => match JsObject.get (fst e) index with
                       | Some n => UPDATE n (snd e)
                       | None => CREATE (snd e)
                       end)).
  rewrite filter_entries by assumption.
  replace (flat_map _ (JsObject.entries index))
    with (flat_map (fun e => map (pair (fst e))
                               match JsObject.get (fst e) store with
                               | Some _ => []
                               | None => if JsObject.inherited (fst e) then []
                                         else [CLOSE (snd e)]
                               end)
            (JsObject.entries index)).
  2:{ apply flat_map_ext. intros e. destruct (JsObject.get (fst e) store);
        [reflexivity|]. now destruct (JsObject.inherited (fst e)). }
  rewrite filter_flat_map_key, filter_entries by assumption.
  destruct (JsObject.get id store) as [v|] eqn:Es,
           (JsObject.get id index) as [n|] eqn:Ei; simpl;
    rewrite ?Es, ?Ei; try reflexivity.
  now destruct (JsObject.inherited id).
Qed.

(** The script once the report is loaded and a token is set: the banner of
    a dry run, [main], and the handler of its exception. *)
Lemma script_spec d report c token w :
  script d (Some report) (Some (String c token)) w
  = let w0 :=
      if d then
        snd (console_log
               "⚠️  Running in dryrun mode, no issues will be updated on Github ⚠️"
               w)
      else w in
    match vulnerabilityStore report with
    | Returns _ => (0%N, snd (main d report w0))
    | Throws error =>
        (1%N, snd (console_error_stack error (snd (main d report w0))))
    end.
Proof.
  unfold script, bind. cbv zeta.
  destruct d; unfold console_log, ret at 1; cbv beta iota; cbn [snd];
    match goal with
    | |- context [main ?d report ?w0] =>
        pose proof (main_result d report w0) as Hr;
        destruct (main d report w0) as [r w'] eqn:E
    end;
    cbn [fst snd] in *; subst r; now destruct (vulnerabilityStore report).
Qed.

(** C1 fails on the code at an identifier that is the name of a member
    every object inherits.  Issue 4 tracks [constructor], which the index
    holds and the (empty) report lacks; the plan asks for a CLOSE of issue
    4, but the test [!vulnerabilityStore[snykId]] finds the inherited member
    and the run closes issue 3 only.  And when the report holds such an
    identifier, no operation is performed for any identifier: grouping
    throws, and the issue tracking [X-9], which the report lacks, is not
    closed either. *)
Theorem C1_inherited_name_not_closed :
  JsObject.get "constructor"
    (fst (fetchSnykGithubIssueMap (start issues_constructor)))
  = Some 4%positive
  /\ vulnerabilityStore [] = Returns []
  /\ filter is_mutation
       (calls (snd (main false [] (start issues_constructor))))
     = [call_of (CLOSE 3)]
  /\ fst (main false report_constructor (start issues_constructor))
     = Throws (TypeError "some")
  /\ filter is_mutation
       (calls (snd (main false report_constructor (start issues_constructor))))
     = [].
Proof. repeat split; vm_compute; reflexivity. Qed.

(** C5: a dry run sends GitHub no create, update or close request and
    leaves its issues as they are, while it logs what a live run logs: the
    unmatched titles followed by the lines of every operation of the plan,
    the very operations whose requests the live run sends; both runs end
    the same way, with the exception of the grouping if there is one.  At
    the top level the dry run's output differs only by its banner, and the
    exit codes agree. *)
Theorem C5_dry_run_same_decisions (report : Snyk.Report) (g : list Issue.t) :
  let dry := main true report (start g) in
  let live := main false report (start g) in
  let ops := map snd (plan_of report g) in
  filter is_mutation (calls (snd dry)) = []
  /\ github (snd dry) = g
  /\ stdout (snd dry) = unmatched (labelled_open g) ++ flat_map log_of ops
  /\ stdout (snd live) = stdout (snd dry)
  /\ filter is_mutation (calls (snd live)) = map call_of ops
  /\ fst dry = fst live
  /\ forall c token,
       let dry' :=
         script true (Some report) (Some (String c token)) (start g) in
       let live' :=
         script false (Some report) (Some (String c token)) (start g) in
       stdout (snd dry')
       = "⚠️  Running in dryrun mode, no issues will be updated on Github ⚠️"
         :: stdout (snd live')
       /\ stderr (snd dry') = stderr (snd live')
       /\ filter is_mutation (calls (snd dry')) = []
       /\ fst dry' = fst live'.
Proof.
  cbv zeta. repeat split.
  - rewrite main_world. rewrite calls_fold_perform_dry.
    rewrite fetchSnykGithubIssueMap_spec. cbn [snd calls start app].
    apply is_mutation_List.
  - rewrite main_world. rewrite github_fold_perform_dry.
    now rewrite fetchSnykGithubIssueMap_spec.
  - apply main_stdout.
  - now rewrite !main_stdout.
  - apply main_live_calls.
  - now rewrite !main_result.
  - rewrite !script_spec. cbv zeta. unfold console_log.
    destruct (vulnerabilityStore report);
      cbn [snd stdout console_error_stack]; rewrite !main_world;
      rewrite !stdout_fold_perform, !fetchSnykGithubIssueMap_spec; reflexivity.
  - rewrite !script_spec. cbv zeta. unfold console_log.
    destruct (vulnerabilityStore report);
      cbn [snd stderr console_error_stack]; now rewrite !main_stderr.
  - rewrite !script_spec. cbv zeta. unfold console_log.
    destruct (vulnerabilityStore report);
      cbn [snd calls console_error_stack]; rewrite !main_world;
      rewrite !calls_fold_perform_dry, !fetchSnykGithubIssueMap_spec;
      cbn [snd calls start app]; apply is_mutation_List.
  - rewrite !script_spec. cbv zeta.
    now destruct (vulnerabilityStore report).
Qed.

(** ** Extraction of identifiers (C4) *)

(** The class of the pattern under its [i] flag holds the characters the
    specification lists, and no other. *)
Lemma in_class_identifier_character c : in_class c = identifier_character c.
Proof. destruct c as [[] [] [] [] [] [] [] []]; vm_compute; reflexivity. Qed.

Lemma is_token_spec s : is_token s = true <-> identifier_token s.
Proof.
  unfold is_token, identifier_token, all_in_class. destruct s as [|c s].
  - split; [discriminate | now intros [H _]].
  - rewrite forallb_forall, Forall_forall. split.
    + intros H. split; [discriminate|]. intros x Hx.
      rewrite <- in_class_identifier_character. now apply H.
    + intros [_ H] x Hx. rewrite in_class_identifier_character. now apply H.
Qed.

(** C4: extraction succeeds on a title exactly when the title contains,
    between square brackets, a non-empty run of letters (upper or lower
    case: the match is case-insensitive), digits, [-] and [:]; the
    identifier returned is such a run and stands in the title as returned,
    character for character (no case normalisation); on success the index
    gets the entry identifier -> issue number under that very string and
    nothing is logged; on failure the title is logged and the index is left
    as it is; and the index built over all listed issues has one entry per
    extracted identifier, each holding the number of an open, labelled issue
    whose title yields it, while the log holds the unmatched titles. *)
Theorem C4_identifier_extraction :
  (forall title,
      (exists id, SNYK_ID_REGEX_exec title = Some id)
      <-> contains_bracketed_token title)
  /\ (forall title id,
        SNYK_ID_REGEX_exec title = Some id ->
        identifier_token id
        /\ exists pre post, title = (pre ++ "[" ++ id ++ "]" ++ post)%string)
  /\ (forall index issue id w,
        SNYK_ID_REGEX_exec (Issue.title issue) = Some id ->
        indexIssue index issue w
        = (JsObject.set id (Issue.number issue) index, w)
        /\ JsObject.get id (JsObject.set id (Issue.number issue) index)
           = Some (Issue.number issue))
  /\ (forall index issue w,
        SNYK_ID_REGEX_exec (Issue.title issue) = None ->
        indexIssue index issue w
        = (index,
           {| stdout := stdout w
                        ++ [("Unmatched Snyk ID for " ++ Issue.title issue)%string];
              stderr := stderr w; calls := calls w; github := github w |}))
  /\ (forall g,
        let index := fst (fetchSnykGithubIssueMap (start g)) in
        NoDup (JsObject.keys index)
        /\ (forall id,
              In id (JsObject.keys index)
              <-> exists issue,
                    In issue g /\ Issue.state issue = open
                    /\ In "snyk-vulnerability" (Issue.labels issue)
                    /\ SNYK_ID_REGEX_exec (Issue.title issue) = Some id)
        /\ (forall id n,
              JsObject.get id index = Some n ->
              exists issue,
                In issue (labelled_open g)
                /\ SNYK_ID_REGEX_exec (Issue.title issue) = Some id
                /\ Issue.number issue = n)
        /\ stdout (snd (fetchSnykGithubIssueMap (start g)))
           = unmatched (labelled_open g)).
Proof.
  split; [|split; [|split; [|split]]].
  - intros title. split.
    + intros [id H]. apply exec_Some in H as (Htok & pre & post & ->).
      exists pre, id, post. split; [reflexivity | now apply is_token_spec].
    + intros (pre & tok & post & -> & Htok). apply exec_bracketed.
      now apply is_token_spec.
  - intros title id H. apply exec_Some in H as (Htok & H).
    split; [now apply is_token_spec | exact H].
  - intros index issue id w H. split; [|apply get_set_same].
    rewrite indexIssue_spec, H. unfold unmatched. cbn [flat_map].
    rewrite H. cbn [app]. rewrite app_nil_r. now destruct w.
  - intros index issue w H. rewrite indexIssue_spec, H.
    unfold unmatched. cbn [flat_map]. rewrite H. now rewrite app_nil_r.
  - intros g. cbv zeta. rewrite fetchSnykGithubIssueMap_spec.
    cbn [fst snd start github stdout app].
    split; [apply issueIndex_NoDup|]. split; [|split].
    + intros id. rewrite issueIndex_keys, In_identifiers. split.
      * intros (i & Hin & H). apply In_labelled_open in Hin. exists i. tauto.
      * intros (i & H1 & H2 & H3 & H4). exists i. split; [|assumption].
        now apply In_labelled_open.
    + intros id n. apply issueIndex_get.
    + reflexivity.
Qed.

(** Identifiers that differ by case only get entries of their own. *)
Example index_keeps_case :
  issueIndex [snyk_issue 2 "x-1"; snyk_issue 1 "X-1"]
  = [("x-1", 2%positive); ("X-1", 1%positive)].
Proof. reflexivity. Qed.

(** The capture keeps the case of the title. *)
Example exec_keeps_case :
  SNYK_ID_REGEX_exec "Snyk vulnerability [snyk-JS-lodash-1234]"
  = Some "snyk-JS-lodash-1234".
Proof. reflexivity. Qed.

(** A dot, an underscore or a space is no character of an identifier: the
    title is unmatched. *)
Example exec_other_characters :
  SNYK_ID_REGEX_exec "Snyk vulnerability [snyk:lic:npm:foo:GPL-3.0]" = None
  /\ SNYK_ID_REGEX_exec "Snyk vulnerability [SNYK_JS_1]" = None
  /\ SNYK_ID_REGEX_exec "Snyk vulnerability [SNYK JS 1]" = None
  /\ SNYK_ID_REGEX_exec "Snyk vulnerability []" = None.
Proof. repeat split. Qed.

(** ** Requests (C6, C7) *)

Lemma patch_number p i : Issue.number (patch p i) = Issue.number i.
Proof. unfold patch. now destruct (Pos.eqb _ _). Qed.

Lemma map_patch_field {A} (proj : Issue.t -> A) (f : Issue.t -> A) p g :
  (forall i, proj (patch p i) = f i) ->
  map proj (github_update p g) = map f g.
Proof.
  intros H. unfold github_update. rewrite map_map. now apply map_ext.
Qed.

(** C6: an UPDATE request carries the issue number and a body and nothing
    else, and GitHub's issues keep their numbers, titles, labels and states
    while the body of the issue addressed becomes the rendered one; a CLOSE
    request carries the issue number and the state [closed] and nothing
    else, and the issues keep their numbers, titles, labels and bodies
    while the state of the issue addressed becomes [closed].  In a dry run
    neither changes anything. *)
Theorem C6_update_and_close_frame (isDryRun : bool) (n : positive)
  (v : Vulnerability) (w : World) :
  let g := github w in
  let updated := snd (updateGithubIssue isDryRun n v w) in
  let closed' := snd (closeGithubIssue isDryRun n w) in
  (calls updated
   = (if isDryRun then calls w
      else calls w
           ++ [Update {| IssuesUpdate.owner := "backstage";
                         IssuesUpdate.repo := "backstage";
                         IssuesUpdate.issue_number := n;
                         IssuesUpdate.title := None;
                         IssuesUpdate.body := Some (generateIssueBody v);
                         IssuesUpdate.state := None;
                         IssuesUpdate.labels := None |}])
   /\ map Issue.number (github updated) = map Issue.number g
   /\ map Issue.title (github updated) = map Issue.title g
   /\ map Issue.labels (github updated) = map Issue.labels g
   /\ map Issue.state (github updated) = map Issue.state g
   /\ map Issue.body (github updated)
      = map (fun i => if isDryRun then Issue.body i
                      else if Pos.eqb (Issue.number i) n
                           then generateIssueBody v
                           else Issue.body i) g)
  /\ (calls closed'
      = (if isDryRun then calls w
         else calls w
              ++ [Update {| IssuesUpdate.owner := "backstage";
                            IssuesUpdate.repo := "backstage";
                            IssuesUpdate.issue_number := n;
                            IssuesUpdate.title := None;
                            IssuesUpdate.body := None;
                            IssuesUpdate.state := Some closed;
                            IssuesUpdate.labels := None |}])
      /\ map Issue.number (github closed') = map Issue.number g
      /\ map Issue.title (github closed') = map Issue.title g
      /\ map Issue.labels (github closed') = map Issue.labels g
      /\ map Issue.body (github closed') = map Issue.body g
      /\ map Issue.state (github closed')
         = map (fun i => if isDryRun then Issue.state i
                         else if Pos.eqb (Issue.number i) n
                              then closed
                              else Issue.state i) g).
Proof.
  cbv zeta. rewrite updateGithubIssue_perform, closeGithubIssue_perform.
  unfold perform. cbn [snd calls github call_of github_step].
  destruct isDryRun.
  - repeat split; try reflexivity; symmetry; apply map_ext; reflexivity.
  - repeat split; try reflexivity; apply map_patch_field; intros i;
      unfold patch; cbn [IssuesUpdate.issue_number];
      destruct (Pos.eqb (Issue.number i) n); reflexivity.
Qed.

(** C7: a live CREATE for a vulnerability with identifier ID sends one
    request whose title is [Snyk vulnerability [ID]], whose labels are
    [snyk-vulnerability] and [help wanted], and whose body is the rendered
    content of the record; GitHub gains one open issue with that title,
    those labels and that body, its other issues staying as they are.  This
    is the request of the plan's CREATE operation. *)
Theorem C7_create_request (v : Vulnerability) (w : World) :
  let created := snd (createGithubIssue false v w) in
  let p := {| IssuesCreate.owner := "backstage";
              IssuesCreate.repo := "backstage";
              IssuesCreate.title :=
                ("Snyk vulnerability [" ++ snykId v ++ "]")%string;
              IssuesCreate.labels := ["snyk-vulnerability"; "help wanted"];
              IssuesCreate.body := generateIssueBody v |} in
  calls created = calls w ++ [Create p]
  /\ call_of (CREATE v) = Create p
  /\ github created
     = {| Issue.number := next_number (github w);
          Issue.title := ("Snyk vulnerability [" ++ snykId v ++ "]")%string;
          Issue.labels := ["snyk-vulnerability"; "help wanted"];
          Issue.state := open;
          Issue.body := generateIssueBody v |} :: github w.
Proof.
  cbv zeta. rewrite createGithubIssue_perform. repeat split.
Qed.

(** ** The issue body (C8) *)

Lemma string_app_assoc (a b c : string) :
  ((a ++ b) ++ c = a ++ b ++ c)%string.
Proof. induction a as [|x a IH]; simpl; [reflexivity | now rewrite IH]. Qed.

Lemma concat_bullets ps : String.concat LF (map bullet ps) = bullet_list ps.
Proof.
  induction ps as [|p ps IH]; [reflexivity|].
  cbn [map String.concat bullet_list]. rewrite IH.
  destruct ps as [|q ps]; [reflexivity|].
  cbn [map]. unfold bullet.
  now rewrite !string_app_assoc.
Qed.

(** C8: the body is a function of the packages and the description of the
    record alone (the identifier plays no part): under the heading, the
    bullet list, one line [* [name](target)] per package in the order of the
    record, then an empty line, then the description, each name, target and
    the description standing in the body character for character. *)
Theorem C8_issue_body (vulnerability : Vulnerability) :
  generateIssueBody vulnerability
  = (LF ++ "## Affecting Packages/Plugins" ++ LF ++ LF
     ++ bullet_list (packages vulnerability)
     ++ LF ++ LF ++ description vulnerability ++ LF)%string
  /\ (forall p ps,
        bullet_list (p :: ps)
        = ("* [" ++ name p ++ "](" ++ target p ++ ")"
           ++ match ps with [] => "" | _ :: _ => LF ++ bullet_list ps end)%string)
  /\ forall id,
       generateIssueBody {| description := description vulnerability;
                            packages := packages vulnerability;
                            snykId := id |}
       = generateIssueBody vulnerability.
Proof.
  split; [|split].
  - unfold generateIssueBody. now rewrite concat_bullets.
  - intros p [|q ps]; cbn [bullet_list]; [|reflexivity].
    transitivity (("* [" ++ name p ++ "](" ++ target p ++ ")") ++ "")%string.
    + clear. induction ("* [" ++ name p ++ "](" ++ target p ++ ")")%string
        as [|c s IH]; simpl; [reflexivity | now rewrite <- IH].
    + now rewrite !string_app_assoc.
  - reflexivity.
Qed.

(** ** The token check (C9) *)

Lemma paginate_pages {A} n room (l : list A) :
  exists page pages, paginate n room l = page :: pages.
Proof.
  destruct l as [|x l]; [now exists [], []|].
  cbn [paginate]. destruct room as [|room].
  - destruct l; eauto.
  - destruct (paginate n room l); simpl; eauto.
Qed.

(** C9, as written, fails: the token check is not the first thing the
    program does.  The import of [../snyk.json] is hoisted above it, so the
    report is loaded before the check, and when it cannot be loaded the
    process ends on that error: standard error holds the stack of the
    import error and not the explanatory message. *)
Lemma C9_counterexample : ~ token_checked_first.
Proof.
  intros H. specialize (H false None (start [])).
  vm_compute in H. discriminate H.
Qed.

(** C9 (amended): once the report module is loaded (and the arguments are
    parsed), a missing [GITHUB_TOKEN], or an empty one, makes the script
    write its explanatory message to standard error and exit with code 1
    before any other work: nothing is printed to standard output, GitHub
    receives no request and no issue changes, and the report is not looked
    at, the outcome being the same whatever the report and the mode.  With
    a token, by contrast, the first thing the script does to GitHub is to
    ask for the first page of issues. *)
Theorem C9_missing_token (isDryRun : bool) (report : Snyk.Report) (w : World) :
  let failed :=
    (1%N,
     {| stdout := stdout w;
        stderr := stderr w
                  ++ [Text "GITHUB_TOKEN is not set. Please provide a Github token"];
        calls := calls w;
        github := github w |}) in
  script isDryRun (Some report) None w = failed
  /\ script isDryRun (Some report) (Some EmptyString) w = failed
  /\ forall c token,
       exists rest,
         calls (snd (script isDryRun (Some report) (Some (String c token)) w))
         = calls w ++ List listParams 1 :: rest.
Proof.
  cbv zeta. split; [reflexivity|]. split; [reflexivity|]. intros c token.
  rewrite script_spec. cbv zeta.
  assert (H : forall w0, calls w0 = calls w -> github w0 = github w ->
              exists rest,
                calls (snd (main isDryRun report w0))
                = calls w ++ List listParams 1 :: rest).
  { intros w0 Hc Hg. rewrite main_world.
    assert (Hf : exists rest,
               calls (snd (fetchSnykGithubIssueMap w0))
               = calls w ++ List listParams 1 :: rest).
    { rewrite fetchSnykGithubIssueMap_spec. cbn [snd calls]. rewrite Hc.
      unfold github_pages.
      destruct (paginate_pages (pred (ListForRepo.per_page listParams))
                  (pred (ListForRepo.per_page listParams))
                  (filter (listed listParams) (github w0)))
        as (page & pages & ->).
      cbn [List.length seq map]. eauto. }
    destruct Hf as (rest & Hf). destruct isDryRun.
    - rewrite calls_fold_perform_dry. eauto.
    - rewrite calls_fold_perform_live, Hf, <- app_assoc. cbn [app]. eauto. }
  assert (H0 : exists rest,
             calls (snd (main isDryRun report
                           (if isDryRun
                            then snd (console_log
                                        "⚠️  Running in dryrun mode, no issues will be updated on Github ⚠️"
                                        w)
                            else w)))
             = calls w ++ List listParams 1 :: rest)
    by (apply H; now destruct isDryRun).
  destruct (vulnerabilityStore report); cbn [snd calls console_error_stack];
    exact H0.
Qed.

(** ** Two runs in a row (C2) *)

(** C2, as written, fails: the title of the issue created for a licence
    identifier is not read back (the dot is no character of the pattern), so
    the second run creates the issue again; and of two open issues with the
    same identifier the first run closes one and the second run the other. *)
Lemma C2_counterexample :
  ~ second_run_only_updates report_licence issues_tracked_twice.
Proof. vm_compute. discriminate. Qed.

(** What the second run does there: a CREATE and a CLOSE. *)
Example second_run_creates_and_closes :
  map (fun e => match snd e with
                | CREATE _ => (fst e, "CREATE", None)
                | UPDATE n _ => (fst e, "UPDATE", Some n)
                | CLOSE n => (fst e, "CLOSE", Some n)
                end)
      (second_plan report_licence issues_tracked_twice)
  = [("snyk:lic:npm:foo:GPL-3.0", "CREATE", None);
     ("X-9", "CLOSE", Some 2%positive)].
Proof. vm_compute. reflexivity. Qed.

Lemma number_lt_next i g :
  In i g -> (Issue.number i < next_number g)%positive.
Proof.
  induction g as [|a g IH]; simpl; [tauto|].
  intros [->|H]; [lia|]. specialize (IH H). lia.
Qed.

Lemma next_number_step op g :
  (next_number g <= next_number (github_step (call_of op) g))%positive.
Proof.
  destruct op as [v|n v|n]; cbn [call_of github_step].
  - unfold github_create. simpl. lia.
  - unfold github_update. induction g as [|a g IH]; simpl; [lia|].
    rewrite patch_number. lia.
  - unfold github_update. induction g as [|a g IH]; simpl; [lia|].
    rewrite patch_number. lia.
Qed.

Lemma NoDup_map_injective {A B} (f : A -> B) (l : list A) x y :
  NoDup (map f l) -> In x l -> In y l -> f x = f y -> x = y.
Proof.
  induction l as [|a l IH]; simpl; [tauto|].
  intros Hnd Hx Hy Hf. inversion Hnd as [|? ? Hnotin Hnd']; subst.
  destruct Hx as [->|Hx], Hy as [->|Hy]; auto.
  - exfalso. apply Hnotin. rewrite Hf. now apply in_map.
  - exfalso. apply Hnotin. rewrite <- Hf. now apply in_map.
Qed.

(** An issue after one operation: what it was before. *)
Lemma step_origin op g i :
  In i (github_step (call_of op) g) ->
  (exists i0, In i0 g
              /\ Issue.number i = Issue.number i0
              /\ Issue.title i = Issue.title i0
              /\ Issue.labels i = Issue.labels i0
              /\ (Issue.state i = open ->
                  Issue.state i0 = open /\ op <> CLOSE (Issue.number i0)))
  \/ (exists v, op = CREATE v /\ i = {| Issue.number := next_number g;
                                        Issue.title :=
                                          "Snyk vulnerability [" ++ snykId v ++ "]";
                                        Issue.labels :=
                                          ["snyk-vulnerability"; "help wanted"];
                                        Issue.state := open;
                                        Issue.body := generateIssueBody v |}).
Proof.
  destruct op as [v|n v|n]; cbn [call_of github_step].
  - intros [<-|H].
    + right. now exists v.
    + left. exists i. repeat split; try assumption. discriminate.
  - unfold github_update. rewrite in_map_iff. intros (i0 & <- & H).
    left. exists i0. unfold patch. cbn [IssuesUpdate.issue_number].
    destruct (Pos.eqb (Issue.number i0) n); repeat split; try assumption;
      discriminate.
  - unfold github_update. rewrite in_map_iff. intros (i0 & <- & H).
    left. exists i0. unfold patch. cbn [IssuesUpdate.issue_number].
    destruct (Pos.eqb (Issue.number i0) n) eqn:E.
    + repeat split; try assumption; cbn in *; discriminate.
    + apply Pos.eqb_neq in E. repeat split; try assumption. congruence.
Qed.

(** An issue after one operation that does not close it. *)
Lemma step_survives op g i0 :
  In i0 g -> op <> CLOSE (Issue.number i0) ->
  exists i, In i (github_step (call_of op) g)
            /\ Issue.number i = Issue.number i0
            /\ Issue.title i = Issue.title i0
            /\ Issue.labels i = Issue.labels i0
            /\ Issue.state i = Issue.state i0.
Proof.
  intros Hin Hop. destruct op as [v|n v|n]; cbn [call_of github_step].
  - exists i0. repeat split. now right.
  - eexists. split; [apply in_map, Hin|].
    unfold patch. cbn [IssuesUpdate.issue_number].
    destruct (Pos.eqb (Issue.number i0) n); repeat split.
  - eexists. split; [apply in_map, Hin|].
    unfold patch. cbn [IssuesUpdate.issue_number].
    destruct (Pos.eqb (Issue.number i0) n) eqn:E; repeat split.
    apply Pos.eqb_eq in E. congruence.
Qed.

Lemma carry_out_origin ops g i :
  In i (carry_out ops g) ->
  (exists i0, In i0 g
              /\ Issue.number i = Issue.number i0
              /\ Issue.title i = Issue.title i0
              /\ Issue.labels i = Issue.labels i0
              /\ (Issue.state i = open ->
                  Issue.state i0 = open
                  /\ ~ In (CLOSE (Issue.number i0)) ops))
  \/ (exists v, In (CREATE v) ops
                /\ Issue.title i = ("Snyk vulnerability [" ++ snykId v ++ "]")%string).
Proof.
  unfold carry_out. revert g. induction ops as [|op ops IH]; intros g H.
  - left. exists i. simpl in H. repeat split; tauto.
  - cbn [fold_left] in H. apply IH in H as [(i1 & H1 & Hn & Ht & Hl & Hs)|(v & Hv & Ht)].
    + apply step_origin in H1 as [(i0 & H0 & Hn0 & Ht0 & Hl0 & Hs0)|(v & -> & ->)].
      * left. exists i0. repeat split; try congruence.
        -- tauto.
        -- intros [Hop|Hop].
           ++ apply Hs in H as [H1 _]. apply Hs0 in H1 as [_ H1]. congruence.
           ++ apply Hs in H as [_ H]. rewrite Hn0 in H. tauto.
      * right. exists v. split; [now left | exact Ht].
    + right. exists v. split; [now right | exact Ht].
Qed.

Lemma carry_out_survives ops g i0 :
  In i0 g -> ~ In (CLOSE (Issue.number i0)) ops ->
  exists i, In i (carry_out ops g)
            /\ Issue.number i = Issue.number i0
            /\ Issue.title i = Issue.title i0
            /\ Issue.labels i = Issue.labels i0
            /\ Issue.state i = Issue.state i0.
Proof.
  unfold carry_out. revert g i0. induction ops as [|op ops IH]; intros g i0 H Hc.
  - exists i0. now repeat split.
  - destruct (step_survives op g i0 H) as (i1 & H1 & Hn & Ht & Hl & Hs).
    { intros ->. apply Hc. now left. }
    destruct (IH _ i1 H1) as (i & Hi & Hn' & Ht' & Hl' & Hs').
    { rewrite Hn. intros Hin. apply Hc. now right. }
    exists i. cbn [fold_left]. repeat split; congruence.
Qed.

(** An issue that was created stays as created when every issue closed
    later bears a number that was in use before. *)
Lemma carry_out_created ops g v :
  In (CREATE v) ops ->
  (forall n, In (CLOSE n) ops -> (n < next_number g)%positive) ->
  exists i, In i (carry_out ops g)
            /\ Issue.title i = ("Snyk vulnerability [" ++ snykId v ++ "]")%string
            /\ Issue.labels i = ["snyk-vulnerability"; "help wanted"]
            /\ Issue.state i = open.
Proof.
  revert g. induction ops as [|op ops IH]; intros g Hin Hlt; [easy|].
  destruct Hin as [->|Hin].
  - destruct (carry_out_survives ops (github_step (call_of (CREATE v)) g)
                {| Issue.number := next_number g;
                   Issue.title := "Snyk vulnerability [" ++ snykId v ++ "]";
                   Issue.labels := ["snyk-vulnerability"; "help wanted"];
                   Issue.state := open;
                   Issue.body := generateIssueBody v |})
      as (i & Hi & _ & Ht & Hl & Hs).
    + now left.
    + cbn [Issue.number]. intros Hc.
      assert (next_number g < next_number g)%positive by (apply Hlt; now right).
      lia.
    + exists i. now repeat split.
  - destruct (IH (github_step (call_of op) g) Hin) as (i & Hi & H).
    + intros n Hn. pose proof (next_number_step op g).
      assert (n < next_number g)%positive by (apply Hlt; now right). lia.
    + exists i. split; [exact Hi | exact H].
Qed.

(** The operations of a plan. *)
Lemma plan_operations store index op :
  NoDup (JsObject.keys store) -> NoDup (JsObject.keys index) ->
  In op (map snd (plan store index))
  <-> match op with
      | CREATE v => exists id, JsObject.get id store = Some v
                               /\ JsObject.get id index = None
      | UPDATE n v => exists id, JsObject.get id store = Some v
                                 /\ JsObject.get id index = Some n
      | CLOSE n => exists id, JsObject.lookup id store = JsObject.Undefined
                              /\ JsObject.get id index = Some n
      end.
Proof.
  intros Hs Hi. unfold plan. rewrite map_app, in_app_iff, !in_map_iff. split.
  - intros [(e & <- & H)|(e & <- & H)].
    + apply in_map_iff in H as ([id v] & <- & H). cbn [fst snd].
      apply (proj1 (In_entries _ _)) in H. apply In_get in H; [|assumption].
      destruct (JsObject.get id index) eqn:E; exists id; auto.
    + apply in_flat_map in H as ([id n] & H & He). cbn [fst snd] in He.
      apply (proj1 (In_entries _ _)) in H. apply In_get in H; [|assumption].
      destruct (JsObject.get id store) eqn:E; [easy|].
      destruct (JsObject.inherited id) eqn:Einh; [easy|].
      destruct He as [<-|[]]. exists id. split; [|assumption].
      now apply lookup_Undefined.
  - destruct op as [v|n v|n]; intros (id & H1 & H2).
    + left. exists (id, CREATE v). split; [reflexivity|].
      apply in_map_iff. exists (id, v). cbn [fst snd]. rewrite H2.
      split; [reflexivity|]. now apply In_entries, get_Some_In.
    + left. exists (id, UPDATE n v). split; [reflexivity|].
      apply in_map_iff. exists (id, v). cbn [fst snd]. rewrite H2.
      split; [reflexivity|]. now apply In_entries, get_Some_In.
    + right. exists (id, CLOSE n). split; [reflexivity|].
      apply lookup_Undefined in H1 as [H1 Hinh].
      apply in_flat_map. exists (id, n). cbn [fst snd]. rewrite H1, Hinh.
      split; [now apply In_entries, get_Some_In | now left].
Qed.

Lemma listed_labelled_open i g :
  In i g -> Issue.state i = open ->
  Issue.labels i = ["snyk-vulnerability"; "help wanted"]
  \/ In "snyk-vulnerability" (Issue.labels i) ->
  In i (labelled_open g).
Proof.
  intros Hin Hs Hl. apply In_labelled_open. repeat split; try assumption.
  destruct Hl as [->|Hl]; [now left | assumption].
Qed.

Section SecondRun.

Variable report : Snyk.Report.
Variable g : list Issue.t.
Variable store : JsObject.t Vulnerability.

Let index := issueIndex (labelled_open g).
Let ops := map snd (plan store index).
Let g' := github_after report g.

Hypothesis grouping : vulnerabilityStore report = Returns store.
Hypothesis tokens : forallb is_token (JsObject.keys store) = true.
Hypothesis numbers : NoDup (map Issue.number g).
Hypothesis tracked_once :
  forall id, JsObject.lookup id store = JsObject.Undefined ->
             (count_occ string_dec (identifiers (labelled_open g)) id <= 1)%nat.

Lemma second_github : g' = carry_out ops g.
Proof.
  unfold g'. rewrite main_live_github.
  now rewrite (plan_of_Returns report store g grouping).
Qed.

Lemma store_token id v : JsObject.get id store = Some v ->
  SNYK_ID_REGEX_exec ("Snyk vulnerability [" ++ snykId v ++ "]") = Some id.
Proof.
  intros H. assert (Hin : In (id, v) store) by now apply get_Some_In.
  rewrite (store_snykId report store id v grouping Hin).
  apply exec_created_title.
  rewrite forallb_forall in tokens. apply tokens. eauto using In_keys.
Qed.

Lemma closed_below n : In (CLOSE n) ops -> (n < next_number g)%positive.
Proof.
  intros H. apply plan_operations in H as (id & _ & H);
    [|keys_distinct | keys_distinct].
  apply issueIndex_get in H as (i & Hi & _ & <-).
  apply number_lt_next. apply In_labelled_open in Hi. tauto.
Qed.

(** Every grouped identifier has an open, labelled issue after the first
    run. *)
Lemma second_index_covers id v :
  JsObject.get id store = Some v ->
  In id (identifiers (labelled_open g')).
Proof.
  intros Hv. rewrite second_github. apply In_identifiers.
  destruct (JsObject.get id index) as [n|] eqn:En.
  - destruct (issueIndex_get _ _ _ En) as (i0 & Hi0 & Hid & Hn).
    assert (Hg : In i0 g /\ Issue.state i0 = open
                 /\ In "snyk-vulnerability" (Issue.labels i0))
      by now apply In_labelled_open.
    destruct Hg as (Hg & Hst & Hlab).
    destruct (carry_out_survives ops g i0 Hg) as (i & Hi & _ & Ht & Hl & Hs).
    + intros Hc. apply plan_operations in Hc as (id' & Hnone & Hsome);
        [|keys_distinct | keys_distinct].
      apply lookup_Undefined in Hnone as [Hnone _].
      destruct (issueIndex_get _ _ _ Hsome) as (i1 & Hi1 & Hid1 & Hn1).
      assert (i1 = i0).
      { apply (NoDup_map_injective Issue.number g);
          try assumption; try congruence.
        apply In_labelled_open in Hi1. tauto. }
      subst i1. congruence.
    + exists i. split; [|congruence].
      apply listed_labelled_open; [assumption | congruence |].
      right. congruence.
  - destruct (carry_out_created ops g v) as (i & Hi & Ht & Hl & Hs).
    + apply plan_operations;
        [keys_distinct | keys_distinct |].
      exists id. auto.
    + apply closed_below.
    + exists i. split; [now apply listed_labelled_open; auto|].
      rewrite Ht. now apply store_token.
Qed.

(** Every open, labelled issue left after the first run tracks an
    identifier that [main] takes for reported: a grouped one, or the name
    of an inherited member. *)
Lemma second_index_covered id :
  In id (identifiers (labelled_open g')) ->
  JsObject.lookup id store <> JsObject.Undefined.
Proof.
  rewrite second_github. intros H.
  apply In_identifiers in H as (i & Hi & Hid).
  apply In_labelled_open in Hi as (Hi & Hst & Hlab).
  apply carry_out_origin in Hi
    as [(i0 & Hi0 & Hn & Ht & Hl & Hs)|(v & Hv & Ht)].
  - destruct (Hs Hst) as [Hst0 Hnc]. intros Hnone. apply Hnc.
    apply plan_operations;
      [keys_distinct | keys_distinct |].
    exists id. split; [assumption|].
    apply issueIndex_get_once; [now apply tracked_once | | congruence].
    apply In_labelled_open. repeat split; congruence.
  - apply plan_operations in Hv as (id' & Hv & _);
      [|keys_distinct | keys_distinct].
    rewrite Ht, (store_token id' v Hv) in Hid. injection Hid as <-.
    unfold JsObject.lookup. now rewrite Hv.
Qed.

Lemma second_plan_updates :
  forallb (fun e => is_update (snd e)) (second_plan report g) = true.
Proof.
  unfold second_plan. fold g'.
  rewrite (plan_of_Returns report store g' grouping). unfold plan.
  rewrite forallb_app, andb_true_iff. split.
  - rewrite forallb_forall. intros e He.
    apply in_map_iff in He as ([id v] & <- & He). cbn [fst snd].
    apply (proj1 (In_entries _ _)) in He.
    apply In_get in He; [|keys_distinct].
    apply second_index_covers in He.
    apply (proj2 (issueIndex_keys _ _)) in He.
    apply (proj2 (get_In_keys _ _)) in He.
    now destruct (JsObject.get id (issueIndex (labelled_open g'))).
  - rewrite forallb_forall. intros e He.
    apply in_flat_map in He as ([id n] & Hin & He). cbn [fst snd] in He.
    apply (proj1 (In_entries _ _)), In_keys in Hin.
    apply (proj1 (issueIndex_keys _ _)), second_index_covered in Hin.
    unfold JsObject.lookup in Hin.
    destruct (JsObject.get id store); [easy|].
    now destruct (JsObject.inherited id).
Qed.

Lemma second_plan_update id v :
  JsObject.get id store = Some v ->
  exists n, operations_for id (second_plan report g) = [UPDATE n v].
Proof.
  intros Hv. unfold second_plan. fold g'.
  rewrite (plan_of_Returns report store g' grouping).
  rewrite operations_for_plan;
    [|keys_distinct | keys_distinct].
  rewrite Hv.
  apply second_index_covers in Hv.
  apply (proj2 (issueIndex_keys _ _)) in Hv.
  apply (proj2 (get_In_keys _ _)) in Hv.
  destruct (JsObject.get id (issueIndex (labelled_open g'))) as [n|];
    [eauto | congruence].
Qed.

End SecondRun.

(** C2 (amended): let grouping the report complete (no identifier of the
    report is the name of a member inherited from [Object.prototype]), let
    every identifier of the grouped report be a token of the pattern (a
    non-empty run of letters, digits, [-] and [:]), let the issue numbers
    be distinct, and let every identifier that a run would close (one the
    report lacks and which is no such name) be that of at most one open,
    labelled issue.  Then, after a live run, a second live run on the same
    report sends the requests of a plan made of UPDATE operations only, one
    for every identifier of the report, and no CREATE or CLOSE. *)
Theorem C2_second_run_only_updates (report : Snyk.Report) (g : list Issue.t)
  (store : JsObject.t Vulnerability) :
  vulnerabilityStore report = Returns store ->
  forallb is_token (JsObject.keys store) = true ->
  NoDup (map Issue.number g) ->
  (forall id,
      JsObject.lookup id store = JsObject.Undefined ->
      (count_occ string_dec (identifiers (labelled_open g)) id <= 1)%nat) ->
  let second := second_plan report g in
  filter is_mutation
    (calls (snd (main false report (start (github_after report g)))))
  = map call_of (map snd second)
  /\ forallb (fun e => is_update (snd e)) second = true
  /\ forall id v,
       JsObject.get id store = Some v ->
       exists n, operations_for id second = [UPDATE n v].
Proof.
  intros Hstore Htok Hnum Hdis. cbv zeta.
  split; [apply main_live_calls|]. split.
  - now apply (second_plan_updates report g store).
  - intros id v. now apply (second_plan_update report g store).
Qed.

(** The amended C2 at the sample issues: the first run updates issue 3 and
    closes issue 7, the second run only updates issue 3. *)
Lemma C2_second_run_only_updates_witness :
  let second := second_plan report_two_packages issues_sample in
  filter is_mutation
    (calls (snd (main false report_two_packages
                   (start (github_after report_two_packages issues_sample)))))
  = map call_of (map snd second)
  /\ forallb (fun e => is_update (snd e)) second = true
  /\ forall id v,
       JsObject.get id (grouped report_two_packages) = Some v ->
       exists n, operations_for id second = [UPDATE n v].
Proof.
  apply (C2_second_run_only_updates report_two_packages issues_sample
           (grouped report_two_packages)).
  - reflexivity.
  - reflexivity.
  - repeat constructor; simpl; intuition discriminate.
  - intros id _. apply NoDup_count_occ.
    repeat constructor; simpl; intuition discriminate.
Defined.

(** ** The scenarios of the specification *)

(** Scenario 1: no issue yet, one CREATE. *)
Example scenario_1 :
  filter is_mutation (calls (snd (main false report_lodash (start []))))
  = [Create {| IssuesCreate.owner := "backstage";
               IssuesCreate.repo := "backstage";
               IssuesCreate.title := "Snyk vulnerability [SNYK-JS-LODASH-1234]";
               IssuesCreate.labels := ["snyk-vulnerability"; "help wanted"];
               IssuesCreate.body :=
                 generateIssueBody
                   {| description := "Prototype Pollution";
                      packages := [{| name := "foo"; target := "yarn.lock" |}];
                      snykId := "SNYK-JS-LODASH-1234" |} |}].
Proof. reflexivity. Qed.

(** Scenario 2: one record with two packages, one operation. *)
Example scenario_2 :
  vulnerabilityStore report_two_packages
  = Returns
      [("X-1", {| description := "first";
                  packages := [{| name := "pkgA"; target := "lock1" |};
                               {| name := "pkgB"; target := "lock2" |}];
                  snykId := "X-1" |})]
  /\ List.length (plan_of report_two_packages []) = 1
  /\ List.length (plan_of report_two_packages [snyk_issue 3 "X-1"]) = 1.
Proof. repeat split. Qed.

(** Scenario 3: the identifier is gone from the report, one CLOSE that
    carries no body. *)
Example scenario_3 :
  filter is_mutation (calls (snd (main false [] (start [snyk_issue 4 "X-9"]))))
  = [Update {| IssuesUpdate.owner := "backstage";
               IssuesUpdate.repo := "backstage";
               IssuesUpdate.issue_number := 4;
               IssuesUpdate.title := None;
               IssuesUpdate.body := None;
               IssuesUpdate.state := Some closed;
               IssuesUpdate.labels := None |}].
Proof. reflexivity. Qed.

(** Scenario 4: the identifier is still reported, one UPDATE and no CLOSE. *)
Example scenario_4 :
  map snd (plan_of report_x9 [snyk_issue 4 "X-9"])
  = [UPDATE 4 {| description := "still there";
                 packages := [{| name := "pkgA"; target := "lock1" |}];
                 snykId := "X-9" |}].
Proof. reflexivity. Qed.

(** * Part V: further properties of the script *)

(** ** Grouping that completes, and the run that follows *)

(** Grouping throws exactly when some finding with an id and a description
    bears as its id the name of a member of [Object.prototype]; what it
    throws is the [TypeError] of reading [some]. *)
Theorem grouping_throws_on_inherited_names (report : Snyk.Report) :
  ((exists error, vulnerabilityStore report = Throws error)
   <-> exists project finding id d,
         In project report /\ In finding (Snyk.vulnerabilities project)
         /\ Snyk.id finding = Some id /\ Snyk.description finding = Some d
         /\ In id JsObject.object_prototype)
  /\ forall error,
       vulnerabilityStore report = Throws error -> error = TypeError "some".
Proof.
  rewrite vulnerabilityStore_spec. unfold names_inherited_member.
  destruct (existsb _ (occurrences report)) eqn:E; split.
  - split; [intros _ | eauto].
    apply existsb_exists in E as ([[id d] p] & Ho & Hinh).
    apply In_occurrences in Ho as (project & f & H1 & H2 & H3 & H4 & _).
    exists project, f, id, d. repeat split; try assumption.
    cbn [fst] in Hinh. unfold JsObject.inherited in Hinh.
    apply existsb_exists in Hinh as (k & Hk & Ek).
    apply String.eqb_eq in Ek. now subst k.
  - now intros error [= <-].
  - split; [now intros [error H]|].
    intros (project & f & id & d & H1 & H2 & H3 & H4 & H5). exfalso.
    assert (existsb (fun o => JsObject.inherited (fst (fst o)))
              (occurrences report) = true); [|congruence].
    apply existsb_exists.
    exists (id, d, {| name := Snyk.projectName project;
                      target := Snyk.displayTargetFile project |}).
    split.
    + apply In_occurrences. now exists project, f.
    + cbn [fst]. unfold JsObject.inherited. apply existsb_exists.
      exists id. split; [assumption | apply String.eqb_refl].
  - discriminate.
Qed.

(** When grouping completes, the grouped output holds every identifier
    once: its keys are free of repetition and are exactly the identifiers
    of the findings that carry both an id and a description; the record
    stored for an identifier lists its packages without repeated names, in
    order of first appearance in the report (the first package of each name
    among the occurrences of the identifier: only packages that report it,
    and every name that reports it); and the findings that lack an id or a
    description contribute nothing: removing them from the report leaves
    the grouped output as it is. *)
Theorem grouped_output (report : Snyk.Report)
  (store : JsObject.t Vulnerability) :
  vulnerabilityStore report = Returns store ->
  NoDup (JsObject.keys store)
  /\ NoDup (JsObject.keys (JsObject.entries store))
  /\ (forall id,
        In id (JsObject.keys store)
        <-> exists project finding d,
              In project report /\ In finding (Snyk.vulnerabilities project)
              /\ Snyk.id finding = Some id
              /\ Snyk.description finding = Some d)
  /\ (forall id v,
        JsObject.get id store = Some v ->
        snykId v = id
        /\ packages v = first_by_name (map snd (occurrences_of id report))
        /\ NoDup (map name (packages v))
        /\ (forall q, In q (packages v) ->
                      In q (map snd (occurrences_of id report)))
        /\ forall o, In o (occurrences_of id report) ->
                     exists q, In q (packages v) /\ name q = name (snd o))
  /\ vulnerabilityStore (without_skipped report) = Returns store.
Proof.
  intros Hstore. pose proof Hstore as Hspec.
  apply vulnerabilityStore_Returns in Hspec as [Hn ->].
  split; [apply grouped_NoDup|].
  split; [apply NoDup_keys_entries, grouped_NoDup|].
  split; [|split].
  - intros id. rewrite grouped_keys, in_map_iff. split.
    + intros ([[i d] p] & Hi & Hin). simpl in Hi. subst i.
      apply In_occurrences in Hin as (project & f & H1 & H2 & H3 & H4 & _).
      now exists project, f, d.
    + intros (project & f & d & H1 & H2 & H3 & H4).
      exists (id, d, {| name := Snyk.projectName project;
                        target := Snyk.displayTargetFile project |}).
      split; [reflexivity|]. apply In_occurrences. now exists project, f.
  - intros id v H. rewrite grouped_get in H.
    destruct (occurrences_of id report) as [|o rest] eqn:E; [discriminate|].
    injection H as <-. cbn [snykId packages].
    split; [reflexivity|]. split; [reflexivity|].
    split; [exact (first_by_name_NoDup (map snd (o :: rest)))|].
    split; [intros q; exact (In_first_by_name q (map snd (o :: rest)))|].
    intros o' Ho'. apply (first_by_name_covers (map snd (o :: rest))).
    now apply in_map.
  - rewrite vulnerabilityStore_spec. unfold names_inherited_member, grouped.
    rewrite occurrences_without_skipped.
    unfold names_inherited_member in Hn. now rewrite Hn.
Qed.

Lemma grouped_output_witness :
  let store :=
    [("X-1", {| description := "first";
                packages := [{| name := "pkgA"; target := "lock1" |};
                             {| name := "pkgB"; target := "lock2" |}];
                snykId := "X-1" |})] in
  NoDup (JsObject.keys store)
  /\ NoDup (JsObject.keys (JsObject.entries store))
  /\ (forall id,
        In id (JsObject.keys store)
        <-> exists project finding d,
              In project report_two_packages
              /\ In finding (Snyk.vulnerabilities project)
              /\ Snyk.id finding = Some id
              /\ Snyk.description finding = Some d)
  /\ (forall id v,
        JsObject.get id store = Some v ->
        snykId v = id
        /\ packages v
           = first_by_name (map snd (occurrences_of id report_two_packages))
        /\ NoDup (map name (packages v))
        /\ (forall q, In q (packages v) ->
                      In q (map snd (occurrences_of id report_two_packages)))
        /\ forall o, In o (occurrences_of id report_two_packages) ->
                     exists q, In q (packages v) /\ name q = name (snd o))
  /\ vulnerabilityStore (without_skipped report_two_packages) = Returns store.
Proof.
  apply (grouped_output report_two_packages). reflexivity.
Defined.

(** When grouping completes, the mutating calls of a live run are exactly
    those of the plan computed from the grouped vulnerabilities and the
    issue index, and for every identifier the plan holds: one CREATE when
    the identifier is grouped but not indexed, one UPDATE of the indexed
    issue number when it is both, one CLOSE of the indexed issue number
    when it is indexed but not grouped, unless it is the name of an
    inherited member, and nothing otherwise; so no identifier gets more
    than one operation. *)
Theorem one_operation_per_identifier (report : Snyk.Report)
  (g : list Issue.t) (store : JsObject.t Vulnerability) (id : string) :
  vulnerabilityStore report = Returns store ->
  let index := fst (fetchSnykGithubIssueMap (start g)) in
  filter is_mutation (calls (snd (main false report (start g))))
  = map call_of (map snd (plan store index))
  /\ operations_for id (plan store index)
     = match JsObject.get id store, JsObject.get id index with
       | Some v, None => [CREATE v]
       | Some v, Some n => [UPDATE n v]
       | None, Some n => if JsObject.inherited id then [] else [CLOSE n]
       | None, None => []
       end.
Proof.
  intros Hstore. cbv zeta. rewrite fetchSnykGithubIssueMap_spec.
  cbn [fst start github]. split.
  - rewrite main_live_calls. now rewrite (plan_of_Returns report store g Hstore).
  - apply operations_for_plan; keys_distinct.
Qed.

Lemma one_operation_per_identifier_witness :
  let store := grouped report_two_packages in
  let index := fst (fetchSnykGithubIssueMap (start issues_sample)) in
  filter is_mutation
    (calls (snd (main false report_two_packages (start issues_sample))))
  = map call_of (map snd (plan store index))
  /\ operations_for "X-9" (plan store index)
     = match JsObject.get "X-9" store, JsObject.get "X-9" index with
       | Some v, None => [CREATE v]
       | Some v, Some n => [UPDATE n v]
       | None, Some n => if JsObject.inherited "X-9" then [] else [CLOSE n]
       | None, None => []
       end.
Proof.
  apply (one_operation_per_identifier report_two_packages issues_sample
           (grouped report_two_packages) "X-9").
  reflexivity.
Defined.

(** There: an UPDATE of issue 3 for [X-1], a CLOSE of issue 7 for [X-9]. *)
Example sample_plan :
  map (fun e => (fst e, addressed (snd e), is_close (snd e)))
    (plan_of report_two_packages issues_sample)
  = [("X-1", Some 3%positive, false); ("X-9", Some 7%positive, true)].
Proof. reflexivity. Qed.


(** ** The index and the pattern *)

(** When several listed issues yield the same identifier, the index holds
    the number of the one listed last. *)
Theorem index_last_issue_wins (g before after : list Issue.t) (i : Issue.t)
  (id : string) :
  labelled_open g = before ++ i :: after ->
  SNYK_ID_REGEX_exec (Issue.title i) = Some id ->
  ~ In id (identifiers after) ->
  JsObject.get id (fst (fetchSnykGithubIssueMap (start g)))
  = Some (Issue.number i).
Proof.
  intros Hg Hid Hafter. rewrite fetchSnykGithubIssueMap_spec.
  cbn [fst start github]. rewrite Hg. unfold issueIndex.
  rewrite fold_left_app. cbn [fold_left].
  rewrite index_fold_untouched by assumption.
  rewrite Hid. apply get_set_same.
Qed.

Lemma index_last_issue_wins_witness :
  JsObject.get "X-9" (fst (fetchSnykGithubIssueMap (start issues_tracked_twice)))
  = Some 1%positive.
Proof.
  apply (index_last_issue_wins issues_tracked_twice
           [snyk_issue 2 "X-9"] [] (snyk_issue 1 "X-9") "X-9").
  - reflexivity.
  - reflexivity.
  - simpl. tauto.
Defined.

Lemma match_at_other c s : c <> "["%char -> match_at (String c s) = None.
Proof.
  intros Hc. unfold match_at.
  destruct c as [[] [] [] [] [] [] [] []]; try reflexivity. congruence.
Qed.

(** A title made of any text without opening bracket, then a token between
    brackets, then anything, is read back as that token. *)
Theorem exec_reads_back_token (pre tok post : string) :
  has_bracket pre = false ->
  is_token tok = true ->
  SNYK_ID_REGEX_exec (pre ++ "[" ++ tok ++ "]" ++ post) = Some tok.
Proof.
  intros Hpre Htok. induction pre as [|c pre IH].
  - pose proof (match_at_token tok post Htok) as Hm.
    destruct tok as [|t tok]; [discriminate|].
    simpl in Hm |- *. now rewrite Hm.
  - unfold has_bracket in Hpre. cbn [list_ascii_of_string existsb] in Hpre.
    apply orb_false_iff in Hpre as [Hc Hpre].
    change (String c pre ++ "[" ++ tok ++ "]" ++ post)%string
      with (String c (pre ++ "[" ++ tok ++ "]" ++ post)).
    cbn [SNYK_ID_REGEX_exec]. rewrite match_at_other.
    + now apply IH.
    + intros ->. now rewrite Ascii.eqb_refl in Hc.
Qed.

Lemma exec_reads_back_token_witness :
  SNYK_ID_REGEX_exec ("Triage: " ++ "[" ++ "npm:lodash:20180130" ++ "]"
                      ++ " in [foo]")
  = Some "npm:lodash:20180130".
Proof.
  apply (exec_reads_back_token "Triage: " "npm:lodash:20180130" " in [foo]");
    reflexivity.
Defined.

(** No title yields [__proto__]: the index is never assigned under the
    name of that accessor. *)
Lemma exec_never_proto title :
  SNYK_ID_REGEX_exec title <> Some "__proto__".
Proof. intros H. apply exec_Some in H as [H _]. discriminate H. Qed.

Lemma index_keys_tokens issues id :
  In id (JsObject.keys (issueIndex issues)) -> is_token id = true.
Proof.
  intros H. apply (proj1 (issueIndex_keys _ _)) in H.
  apply In_identifiers in H as (i & _ & H). now apply exec_Some in H.
Qed.

(** An issue that was created is there at the end, open, under a number
    that was free before, when every issue closed later bears a number that
    was in use before. *)
Lemma carry_out_created_new ops g v :
  In (CREATE v) ops ->
  (forall n, In (CLOSE n) ops -> (n < next_number g)%positive) ->
  exists i, In i (carry_out ops g)
            /\ (next_number g <= Issue.number i)%positive
            /\ Issue.title i = ("Snyk vulnerability [" ++ snykId v ++ "]")%string
            /\ Issue.labels i = ["snyk-vulnerability"; "help wanted"]
            /\ Issue.state i = open.
Proof.
  revert g. induction ops as [|op ops IH]; intros g Hin Hlt; [easy|].
  destruct Hin as [->|Hin].
  - destruct (carry_out_survives ops (github_step (call_of (CREATE v)) g)
                {| Issue.number := next_number g;
                   Issue.title := "Snyk vulnerability [" ++ snykId v ++ "]";
                   Issue.labels := ["snyk-vulnerability"; "help wanted"];
                   Issue.state := open;
                   Issue.body := generateIssueBody v |})
      as (i & Hi & Hn & Ht & Hl & Hs).
    + now left.
    + cbn [Issue.number]. intros Hc.
      assert (next_number g < next_number g)%positive by (apply Hlt; now right).
      lia.
    + exists i. cbn [Issue.number] in Hn. repeat split; try assumption. lia.
  - destruct (IH (github_step (call_of op) g) Hin) as (i & Hi & Hn & H).
    + intros n Hn. pose proof (next_number_step op g).
      assert (n < next_number g)%positive by (apply Hlt; now right). lia.
    + exists i. pose proof (next_number_step op g).
      split; [exact Hi|]. split; [lia | exact H].
Qed.

Lemma plan_closes_below store g n :
  NoDup (JsObject.keys store) ->
  In (CLOSE n) (map snd (plan store (issueIndex (labelled_open g)))) ->
  (n < next_number g)%positive.
Proof.
  intros Hs H. apply plan_operations in H as (id & _ & H);
    [|keys_distinct | keys_distinct].
  apply issueIndex_get in H as (i & Hi & _ & <-).
  apply number_lt_next. apply In_labelled_open in Hi. tauto.
Qed.

(** An identifier of the report that is no token of the pattern is never
    found in the index: whatever issues GitHub holds (those that earlier
    runs opened for it included), a live run sends a CREATE request for it,
    and GitHub holds afterwards an open issue for it under a number that
    was free before the run. *)
Theorem non_token_identifier_always_created (report : Snyk.Report)
  (g : list Issue.t) (store : JsObject.t Vulnerability) (id : string)
  (v : Vulnerability) :
  vulnerabilityStore report = Returns store ->
  JsObject.get id store = Some v ->
  is_token id = false ->
  JsObject.get id (fst (fetchSnykGithubIssueMap (start g))) = None
  /\ In (call_of (CREATE v))
       (filter is_mutation (calls (snd (main false report (start g)))))
  /\ exists i,
       In i (github_after report g)
       /\ (next_number g <= Issue.number i)%positive
       /\ Issue.title i = ("Snyk vulnerability [" ++ snykId v ++ "]")%string
       /\ Issue.state i = open.
Proof.
  intros Hstore Hv Htok.
  assert (Hnone : JsObject.get id (issueIndex (labelled_open g)) = None).
  { destruct (JsObject.get id (issueIndex (labelled_open g))) eqn:E;
      [|reflexivity].
    assert (Hin : In id (JsObject.keys (issueIndex (labelled_open g))))
      by (apply get_In_keys; congruence).
    apply index_keys_tokens in Hin. congruence. }
  assert (Hop : In (CREATE v)
                  (map snd (plan store (issueIndex (labelled_open g))))).
  { apply plan_operations; [keys_distinct | keys_distinct |]. now exists id. }
  split; [|split].
  - rewrite fetchSnykGithubIssueMap_spec. exact Hnone.
  - rewrite main_live_calls, (plan_of_Returns report store g Hstore).
    now apply in_map.
  - rewrite main_live_github, (plan_of_Returns report store g Hstore).
    destruct (carry_out_created_new _ g v Hop) as (i & Hi & Hn & Ht & _ & Hs).
    + intros n. apply plan_closes_below. keys_distinct.
    + exists i. now repeat split.
Qed.

Lemma non_token_identifier_always_created_witness :
  JsObject.get "snyk:lic:npm:foo:GPL-3.0"
    (fst (fetchSnykGithubIssueMap
            (start (github_after report_licence issues_tracked_twice))))
  = None
  /\ In (call_of (CREATE {| description := "GPL-3.0 license";
                            packages := [{| name := "foo";
                                            target := "yarn.lock" |}];
                            snykId := "snyk:lic:npm:foo:GPL-3.0" |}))
       (filter is_mutation
          (calls (snd (main false report_licence
                         (start (github_after report_licence
                                   issues_tracked_twice))))))
  /\ exists i,
       In i (github_after report_licence
               (github_after report_licence issues_tracked_twice))
       /\ (next_number (github_after report_licence issues_tracked_twice)
           <= Issue.number i)%positive
       /\ Issue.title i = "Snyk vulnerability [snyk:lic:npm:foo:GPL-3.0]"
       /\ Issue.state i = open.
Proof.
  apply (non_token_identifier_always_created report_licence
           (github_after report_licence issues_tracked_twice)
           (grouped report_licence)
           "snyk:lic:npm:foo:GPL-3.0");
    reflexivity.
Defined.

(** ** Grouping *)

Lemma addOccurrence_known s id d p v :
  JsObject.get id s = Some v ->
  existsb (fun q => String.eqb (name q) (name p)) (packages v) = true ->
  addOccurrence s (id, d, p) = s.
Proof.
  intros Hv Hp. unfold addOccurrence.
  cbn [fst snd Snyk.id Snyk.description]. now rewrite Hv, Hp.
Qed.

Lemma fold_addOccurrence_known occ s :
  (forall o, In o occ ->
     exists v, JsObject.get (fst (fst o)) s = Some v
               /\ existsb (fun q => String.eqb (name q) (name (snd o)))
                    (packages v) = true) ->
  fold_left addOccurrence occ s = s.
Proof.
  induction occ as [|[[id d] p] occ IH]; intros H; [reflexivity|].
  cbn [fold_left]. destruct (H (id, d, p)) as (v & Hv & Hp); [now left|].
  cbn [fst snd] in Hv, Hp. rewrite (addOccurrence_known s id d p v Hv Hp).
  apply IH. intros o Ho. apply H. now right.
Qed.

(** Findings that repeat a pair of identifier and package name which the
    report holds already leave the outcome of the grouping as it is,
    whatever their description and target file: the same grouped output,
    or the same exception. *)
Theorem repeated_findings_change_nothing (report extra : Snyk.Report) :
  (forall o, In o (occurrences extra) ->
     exists o', In o' (occurrences report)
                /\ fst (fst o') = fst (fst o)
                /\ name (snd o') = name (snd o)) ->
  vulnerabilityStore (report ++ extra) = vulnerabilityStore report.
Proof.
  intros H. rewrite !vulnerabilityStore_spec, names_inherited_member_app.
  destruct (names_inherited_member report) eqn:Hn; [reflexivity|].
  assert (He : names_inherited_member extra = false).
  { unfold names_inherited_member in *.
    destruct (existsb _ (occurrences extra)) eqn:E; [|reflexivity].
    apply existsb_exists in E as (o & Ho & Hinh).
    destruct (H o Ho) as (o' & Ho' & Hid & _).
    assert (existsb (fun o => JsObject.inherited (fst (fst o)))
              (occurrences report) = true)
      by (apply existsb_exists; exists o'; split; [assumption | congruence]).
    congruence. }
  rewrite He. cbn [orb]. f_equal. unfold grouped at 1.
  rewrite occurrences_app, fold_left_app. fold (grouped report).
  apply fold_addOccurrence_known. intros o Ho.
  destruct (H o Ho) as (o' & Ho' & Hid & Hname).
  rewrite grouped_get.
  assert (Hin : In o' (occurrences_of (fst (fst o)) report)).
  { unfold occurrences_of. apply filter_In. split; [assumption|].
    rewrite Hid. apply String.eqb_refl. }
  destruct (occurrences_of (fst (fst o)) report) as [|o0 rest] eqn:E;
    [easy|].
  eexists. split; [reflexivity|]. cbn [packages].
  destruct (first_by_name_covers (map snd (o0 :: rest)) (snd o'))
    as (q & Hq & Hn'); [now apply in_map|].
  apply existsb_exists. exists q. split; [exact Hq|].
  apply String.eqb_eq. congruence.
Qed.

Lemma repeated_findings_change_nothing_witness :
  vulnerabilityStore
    (report_two_packages
     ++ [project "pkgB" "other.lock" [finding "X-1" "reworded"]])
  = vulnerabilityStore report_two_packages.
Proof.
  apply (repeated_findings_change_nothing report_two_packages
           [project "pkgB" "other.lock" [finding "X-1" "reworded"]]).
  intros o [<-|[]].
  exists ("X-1", "second", {| name := "pkgB"; target := "lock2" |}).
  repeat split. simpl. tauto.
Defined.











(** There the identifiers come in the order 2, 10, b. *)
Example entries_order :
  map fst (JsObject.entries
             (grouped [project "p" "t" [finding "b" "d"; finding "10" "d";
                                        finding "2" "d"]]))
  = ["2"; "10"; "b"].
Proof. reflexivity. Qed.

(** ** What a run sends *)

(** In a live run every CREATE and UPDATE request is sent before the first
    CLOSE request. *)
Theorem closes_come_last (report : Snyk.Report) (g : list Issue.t) :
  exists first last,
    filter is_mutation (calls (snd (main false report (start g))))
    = map call_of first ++ map call_of last
    /\ forallb (fun op => negb (is_close op)) first = true
    /\ forallb is_close last = true.
Proof.
  rewrite main_live_calls. unfold plan_of.
  destruct (vulnerabilityStore report) as [store|error];
    [|now exists [], []].
  unfold plan. set (index := issueIndex (labelled_open g)).
  rewrite !map_app. eexists. eexists. split; [reflexivity|]. split.
  - rewrite forallb_forall. intros op Hop.
    apply in_map_iff in Hop as (e & <- & He).
    apply in_map_iff in He as (e' & <- & _). cbn [snd].
    now destruct (JsObject.get (fst e') index).
  - rewrite forallb_forall. intros op Hop.
    apply in_map_iff in Hop as (e & <- & He).
    apply in_flat_map in He as (e' & _ & He).
    destruct (JsObject.get (fst e') store); [easy|].
    destruct (JsObject.inherited (fst e')); [easy|].
    now destruct He as [<-|[]].
Qed.

Lemma plan_of_addressed report g op :
  In op (map snd (plan_of report g)) ->
  match addressed op with
  | Some n => exists id, JsObject.get id (issueIndex (labelled_open g)) = Some n
  | None => True
  end.
Proof.
  unfold plan_of. destruct (vulnerabilityStore report) as [store|error] eqn:E;
    [|easy].
  intros Hop. apply plan_operations in Hop; [|keys_distinct | keys_distinct].
  destruct op as [v|n v|n]; cbn [addressed]; [exact I| |];
    destruct Hop as (id & _ & Hn); eauto.
Qed.

(** Every request of a live run that updates or closes an issue addresses
    an issue that GitHub listed: an open issue that carries the label. *)
Theorem updates_and_closes_address_listed_issues (report : Snyk.Report)
  (g : list Issue.t) :
  Forall (addresses_listed g) (calls (snd (main false report (start g)))).
Proof.
  rewrite main_world, calls_fold_perform_live, fetchSnykGithubIssueMap_spec.
  cbn [snd calls start github app]. apply Forall_app. split.
  - apply Forall_forall. intros c Hc. apply in_map_iff in Hc as (n & <- & _).
    exact I.
  - apply Forall_forall. intros c Hc. apply in_map_iff in Hc as (op & <- & Hop).
    apply plan_of_addressed in Hop.
    destruct op as [v|n v|n]; cbn [addressed call_of addresses_listed
                                    IssuesUpdate.issue_number] in *;
      [exact I| |];
      destruct Hop as (id & Hn);
      apply issueIndex_get in Hn as (i & Hi & _ & Hn); eauto.
Qed.

(** With an empty report a live run closes every indexed issue but those
    whose identifier is the name of an inherited member, and does nothing
    else. *)
Theorem empty_report_closes_every_indexed_issue (g : list Issue.t) :
  filter is_mutation (calls (snd (main false [] (start g))))
  = map (fun e => call_of (CLOSE (snd e)))
      (filter (fun e => negb (JsObject.inherited (fst e)))
         (JsObject.entries (fst (fetchSnykGithubIssueMap (start g))))).
Proof.
  rewrite main_live_calls, fetchSnykGithubIssueMap_spec.
  cbn [fst start github]. unfold plan_of.
  change (vulnerabilityStore []) with (Returns (@nil (string * Vulnerability))).
  cbv beta iota. unfold plan.
  change (JsObject.entries []) with (@nil (string * Vulnerability)).
  cbn [map app].
  generalize (JsObject.entries (issueIndex (labelled_open g))).
  intros l. induction l as [|e l IH]; [reflexivity|].
  cbn [flat_map filter JsObject.get].
  destruct (JsObject.inherited (fst e)); cbn [negb app map snd];
    [|f_equal]; exact IH.
Qed.

Lemma issueIndex_unlisted g :
  labelled_open g = [] -> issueIndex (labelled_open g) = JsObject.empty.
Proof. now intros ->. Qed.

(** When GitHub lists no issue, a live run creates an issue for every
    grouped identifier and does nothing else; it does nothing at all when
    grouping throws. *)
Theorem nothing_listed_creates_everything (report : Snyk.Report)
  (g : list Issue.t) :
  labelled_open g = [] ->
  filter is_mutation (calls (snd (main false report (start g))))
  = match vulnerabilityStore report with
    | Returns store =>
        map (fun e => call_of (CREATE (snd e))) (JsObject.entries store)
    | Throws _ => []
    end.
Proof.
  intros Hg. rewrite main_live_calls. unfold plan_of.
  destruct (vulnerabilityStore report) as [store|error]; [|reflexivity].
  unfold plan. rewrite (issueIndex_unlisted g Hg).
  cbn [JsObject.empty JsObject.entries filter JsObject.sort_by_index
       fold_right flat_map JsObject.get]. rewrite app_nil_r.
  rewrite !map_map. apply map_ext. reflexivity.
Qed.

Lemma nothing_listed_creates_everything_witness :
  filter is_mutation
    (calls (snd (main false report_lodash
                   (start [{| Issue.number := 8;
                              Issue.title := "Snyk vulnerability [SNYK-JS-LODASH-1234]";
                              Issue.labels := ["snyk-vulnerability"];
                              Issue.state := closed;
                              Issue.body := "" |}]))))
  = match vulnerabilityStore report_lodash with
    | Returns store =>
        map (fun e => call_of (CREATE (snd e))) (JsObject.entries store)
    | Throws _ => []
    end.
Proof.
  apply (nothing_listed_creates_everything report_lodash). reflexivity.
Defined.

(** The exit code: 1 when the report module cannot be loaded, 1 when the
    token is missing or empty, 1 when grouping throws, and 0 otherwise,
    whatever the mode and GitHub's issues. *)
Theorem exit_code (isDryRun : bool) (snyk_json : option Snyk.Report)
  (GITHUB_TOKEN : option string) (w : World) :
  fst (script isDryRun snyk_json GITHUB_TOKEN w)
  = match snyk_json, GITHUB_TOKEN with
    | None, _ => 1%N
    | Some _, None | Some _, Some EmptyString => 1%N
    | Some report, Some (String _ _) =>
        match vulnerabilityStore report with
        | Returns _ => 0%N
        | Throws _ => 1%N
        end
    end.
Proof.
  destruct snyk_json as [report|]; [|reflexivity].
  destruct GITHUB_TOKEN as [[|c token]|]; [reflexivity| |reflexivity].
  rewrite script_spec. cbv zeta.
  now destruct (vulnerabilityStore report).
Qed.

(** When grouping throws, the script has listed the issues and logged the
    unmatched titles; it then prints the stack of the exception to standard
    error, sends GitHub no create, update or close request, leaves the
    issues as they are and exits with code 1. *)
Theorem thrown_error_ends_run (isDryRun : bool) (report : Snyk.Report)
  (c : ascii) (token : string) (g : list Issue.t) (error : Exception) :
  vulnerabilityStore report = Throws error ->
  let run := script isDryRun (Some report) (Some (String c token)) (start g) in
  fst run = 1%N
  /\ stderr (snd run) = [Stack error]
  /\ filter is_mutation (calls (snd run)) = []
  /\ github (snd run) = g
  /\ stdout (snd run)
     = (if isDryRun
        then ["⚠️  Running in dryrun mode, no issues will be updated on Github ⚠️"]
        else [])
       ++ unmatched (labelled_open g).
Proof.
  intros Hthrow. cbv zeta. rewrite script_spec, Hthrow. cbv zeta.
  unfold console_error_stack. cbn [fst snd stderr calls github stdout].
  rewrite main_stderr, main_world. unfold plan_of. rewrite Hthrow.
  cbn [map fold_left]. rewrite fetchSnykGithubIssueMap_spec.
  cbn [snd calls github stdout].
  destruct isDryRun; unfold console_log, start;
    cbn [snd stderr calls github stdout app];
    repeat split; try reflexivity; apply is_mutation_List.
Qed.

Lemma thrown_error_ends_run_witness :
  let run :=
    script false (Some report_constructor) (Some "token")
      (start issues_constructor) in
  fst run = 1%N
  /\ stderr (snd run) = [Stack (TypeError "some")]
  /\ filter is_mutation (calls (snd run)) = []
  /\ github (snd run) = issues_constructor
  /\ stdout (snd run) = [] ++ unmatched (labelled_open issues_constructor).
Proof.
  apply (thrown_error_ends_run false report_constructor "t"%char "oken"
           issues_constructor (TypeError "some")).
  reflexivity.
Defined.

(** ** What a run leaves alone *)

Lemma step_unaddressed op g i :
  In i g -> addressed op <> Some (Issue.number i) ->
  In i (github_step (call_of op) g).
Proof.
  intros Hin Hop. destruct op as [v|n v|n]; cbn [call_of github_step].
  - now right.
  - apply in_map_iff. exists i. split; [|assumption]. unfold patch.
    cbn [IssuesUpdate.issue_number].
    destruct (Pos.eqb (Issue.number i) n) eqn:E; [|reflexivity].
    apply Pos.eqb_eq in E. cbn [addressed] in Hop. congruence.
  - apply in_map_iff. exists i. split; [|assumption]. unfold patch.
    cbn [IssuesUpdate.issue_number].
    destruct (Pos.eqb (Issue.number i) n) eqn:E; [|reflexivity].
    apply Pos.eqb_eq in E. cbn [addressed] in Hop. congruence.
Qed.

Lemma carry_out_unaddressed ops g i :
  In i g ->
  (forall op, In op ops -> addressed op <> Some (Issue.number i)) ->
  In i (carry_out ops g).
Proof.
  unfold carry_out. revert g. induction ops as [|op ops IH]; intros g Hin H;
    [assumption|].
  cbn [fold_left]. apply IH.
  - apply step_unaddressed; [assumption|]. apply H. now left.
  - intros op' Hop'. apply H. now right.
Qed.

(** A live run leaves every issue as it is, body and state included, that
    it did not index: an issue that is closed, or lacks the label, or has a
    title without identifier. *)
Theorem unindexed_issue_untouched (report : Snyk.Report) (g : list Issue.t)
  (i : Issue.t) :
  NoDup (map Issue.number g) ->
  In i g ->
  listed listParams i = false \/ SNYK_ID_REGEX_exec (Issue.title i) = None ->
  In i (github_after report g).
Proof.
  intros Hnd Hin Hi. rewrite main_live_github.
  apply carry_out_unaddressed; [assumption|].
  intros op Hop Hadd. apply plan_of_addressed in Hop. rewrite Hadd in Hop.
  destruct Hop as (id & Hn).
  apply issueIndex_get in Hn as (i' & Hi' & Hid & Hnum).
  assert (i' = i).
  { apply (NoDup_map_injective Issue.number g); try assumption.
    apply In_labelled_open in Hi'. tauto. }
  subst i'. destruct Hi as [Hl|Hx]; [|congruence].
  unfold labelled_open in Hi'. apply filter_In in Hi' as [_ Hi']. congruence.
Qed.

Lemma unindexed_issue_untouched_witness :
  In {| Issue.number := 5; Issue.title := "Review the Snyk findings";
        Issue.labels := ["snyk-vulnerability"]; Issue.state := open;
        Issue.body := "" |}
     (github_after report_two_packages issues_sample).
Proof.
  apply (unindexed_issue_untouched report_two_packages issues_sample).
  - repeat constructor; simpl; intuition discriminate.
  - right. now left.
  - now right.
Defined.

Lemma carry_out_kept ops g :
  exists created kept,
    carry_out ops g = created ++ kept
    /\ map Issue.number kept = map Issue.number g
    /\ map Issue.title kept = map Issue.title g
    /\ map Issue.labels kept = map Issue.labels g
    /\ map Issue.title created
       = rev (map (fun v => ("Snyk vulnerability [" ++ snykId v ++ "]")%string)
                (creates ops))
    /\ map Issue.labels created
       = map (fun _ => ["snyk-vulnerability"; "help wanted"])
           (creates ops).
Proof.
  unfold carry_out. revert g. induction ops as [|op ops IH]; intros g.
  - exists [], g. now repeat split.
  - cbn [fold_left].
    destruct (IH (github_step (call_of op) g))
      as (created & kept & Heq & Hn & Ht & Hl & Hct & Hcl).
    rewrite Heq. destruct op as [v|n v|n]; cbn [call_of github_step] in *.
    + unfold github_create in *. destruct kept as [|k kept]; [discriminate|].
      cbn [map Issue.number Issue.title Issue.labels] in Hn, Ht, Hl.
      injection Hn as Hn0 Hn. injection Ht as Ht0 Ht. injection Hl as Hl0 Hl.
      exists (created ++ [k]), kept. rewrite <- app_assoc.
      repeat split; try assumption.
      * rewrite map_app, Hct. cbn [creates flat_map app map rev].
        now rewrite Ht0.
      * rewrite map_app, Hcl. cbn [creates flat_map app map]. rewrite Hl0.
        fold (creates ops). clear.
        induction (creates ops) as [|x l IH]; [reflexivity|].
        cbn [map app]. now rewrite IH.
    + exists created, kept. repeat split; try assumption.
      * rewrite Hn. apply map_patch_field. apply patch_number.
      * rewrite Ht. apply map_patch_field. intros i. unfold patch.
        now destruct (Pos.eqb _ _).
      * rewrite Hl. apply map_patch_field. intros i. unfold patch.
        now destruct (Pos.eqb _ _).
    + exists created, kept. repeat split; try assumption.
      * rewrite Hn. apply map_patch_field. apply patch_number.
      * rewrite Ht. apply map_patch_field. intros i. unfold patch.
        now destruct (Pos.eqb _ _).
      * rewrite Hl. apply map_patch_field. intros i. unfold patch.
        now destruct (Pos.eqb _ _).
Qed.

(** A live run deletes no issue and changes no number, title or label of
    an issue: GitHub's issues afterwards are the issues it had, in their
    order, under their numbers, titles and labels, preceded by one new
    issue for every CREATE of the plan, the newest first, each under the
    title and the labels of its request. *)
Theorem run_keeps_numbers_titles_labels (report : Snyk.Report)
  (g : list Issue.t) :
  exists created kept,
    github_after report g = created ++ kept
    /\ map Issue.number kept = map Issue.number g
    /\ map Issue.title kept = map Issue.title g
    /\ map Issue.labels kept = map Issue.labels g
    /\ map Issue.title created
       = rev (map (fun v => ("Snyk vulnerability [" ++ snykId v ++ "]")%string)
                (creates (map snd (plan_of report g))))
    /\ map Issue.labels created
       = map (fun _ => ["snyk-vulnerability"; "help wanted"])
           (creates (map snd (plan_of report g))).
Proof. rewrite main_live_github. apply carry_out_kept. Qed.

(** An open, labelled issue whose title yields the name of an inherited
    member ([constructor], [toString], ...) is left as it is by every live
    run, whatever the report: it is never closed, though no report can hold
    its identifier. *)
Theorem inherited_name_issue_untouched (report : Snyk.Report)
  (g : list Issue.t) (i : Issue.t) (id : string) :
  NoDup (map Issue.number g) ->
  In i g ->
  SNYK_ID_REGEX_exec (Issue.title i) = Some id ->
  JsObject.inherited id = true ->
  In i (github_after report g).
Proof.
  intros Hnd Hin Hid Hinh. rewrite main_live_github.
  apply carry_out_unaddressed; [assumption|].
  intros op Hop Hadd. unfold plan_of in Hop.
  destruct (vulnerabilityStore report) as [store|error] eqn:Hstore; [|easy].
  apply plan_operations in Hop; [|keys_distinct | keys_distinct].
  assert (Hsame : forall id', JsObject.get id' (issueIndex (labelled_open g))
                              = Some (Issue.number i) -> id' = id).
  { intros id' Hn. apply issueIndex_get in Hn as (i' & Hi' & Hid' & Hnum).
    assert (i' = i).
    { apply (NoDup_map_injective Issue.number g); try assumption.
      apply In_labelled_open in Hi'. tauto. }
    subst i'. congruence. }
  destruct op as [v|n v|n]; cbn [addressed] in Hadd; [discriminate| |];
    injection Hadd as ->; destruct Hop as (id' & H1 & H2);
    apply Hsame in H2; subst id'.
  - assert (JsObject.inherited id = false); [|congruence].
    apply (store_not_inherited report store); [assumption|].
    apply get_In_keys. congruence.
  - apply lookup_Undefined in H1 as [_ H1]. congruence.
Qed.

Lemma inherited_name_issue_untouched_witness :
  In (snyk_issue 4 "constructor") (github_after [] issues_constructor).
Proof.
  apply (inherited_name_issue_untouched [] issues_constructor
           (snyk_issue 4 "constructor") "constructor").
  - repeat constructor; simpl; intuition discriminate.
  - now left.
  - reflexivity.
  - reflexivity.
Defined.

(** ** Runs after the first *)

Lemma step_numbers_NoDup op g :
  NoDup (map Issue.number g) ->
  NoDup (map Issue.number (github_step (call_of op) g)).
Proof.
  intros Hnd. destruct op as [v|n v|n]; cbn [call_of github_step].
  - unfold github_create. cbn [map Issue.number]. constructor; [|assumption].
    intros Hin. apply in_map_iff in Hin as (i & Hn & Hi).
    apply number_lt_next in Hi. lia.
  - now rewrite (map_patch_field Issue.number Issue.number _ g (patch_number _)).
  - now rewrite (map_patch_field Issue.number Issue.number _ g (patch_number _)).
Qed.

Lemma carry_out_numbers_NoDup ops g :
  NoDup (map Issue.number g) -> NoDup (map Issue.number (carry_out ops g)).
Proof.
  unfold carry_out. revert g. induction ops as [|op ops IH]; intros g Hnd;
    [assumption|].
  cbn [fold_left]. now apply IH, step_numbers_NoDup.
Qed.

(** A live run keeps the issue numbers distinct. *)
Lemma github_after_numbers_NoDup report g :
  NoDup (map Issue.number g) ->
  NoDup (map Issue.number (github_after report g)).
Proof. rewrite main_live_github. apply carry_out_numbers_NoDup. Qed.

(** After a live run no open, labelled issue tracks an identifier that a
    run would close. *)
Lemma github_after_tracked report g store :
  vulnerabilityStore report = Returns store ->
  forallb is_token (JsObject.keys store) = true ->
  (forall id,
      JsObject.lookup id store = JsObject.Undefined ->
      (count_occ string_dec (identifiers (labelled_open g)) id <= 1)%nat) ->
  forall id,
    JsObject.lookup id store = JsObject.Undefined ->
    (count_occ string_dec
       (identifiers (labelled_open (github_after report g))) id <= 1)%nat.
Proof.
  intros Hstore Htok Honce id Hnone.
  assert (H0 : count_occ string_dec
                 (identifiers (labelled_open (github_after report g))) id = 0%nat).
  { apply count_occ_not_In. intros Hin.
    now apply (second_index_covered report g store Hstore Htok Honce id Hin). }
  lia.
Qed.

(** Under the conditions of the amended C2, not only the second run but
    every run after the first sends UPDATE requests only. *)
Theorem every_later_run_only_updates (report : Snyk.Report)
  (g : list Issue.t) (store : JsObject.t Vulnerability) (n : nat) :
  vulnerabilityStore report = Returns store ->
  forallb is_token (JsObject.keys store) = true ->
  NoDup (map Issue.number g) ->
  (forall id,
      JsObject.lookup id store = JsObject.Undefined ->
      (count_occ string_dec (identifiers (labelled_open g)) id <= 1)%nat) ->
  let later := plan_of report (runs (S n) report g) in
  filter is_mutation
    (calls (snd (main false report (start (runs (S n) report g)))))
  = map call_of (map snd later)
  /\ forallb (fun e => is_update (snd e)) later = true.
Proof.
  intros Hstore Htok Hnd Honce. cbv zeta. split; [apply main_live_calls|].
  assert (Hinv : NoDup (map Issue.number (runs n report g))
                 /\ forall id,
                      JsObject.lookup id store = JsObject.Undefined ->
                      (count_occ string_dec
                         (identifiers (labelled_open (runs n report g))) id
                       <= 1)%nat).
  { induction n as [|n [IH1 IH2]]; [now split|].
    unfold runs in *. cbn [Nat.iter]. split.
    - now apply github_after_numbers_NoDup.
    - now apply (github_after_tracked report _ store). }
  destruct Hinv as [H1 H2].
  unfold runs. cbn [Nat.iter].
  exact (second_plan_updates report (Nat.iter n (github_after report) g) store
           Hstore Htok H1 H2).
Qed.

Lemma every_later_run_only_updates_witness :
  let later :=
    plan_of report_two_packages (runs 3 report_two_packages issues_sample) in
  filter is_mutation
    (calls (snd (main false report_two_packages
                   (start (runs 3 report_two_packages issues_sample)))))
  = map call_of (map snd later)
  /\ forallb (fun e => is_update (snd e)) later = true.
Proof.
  apply (every_later_run_only_updates report_two_packages issues_sample
           (grouped report_two_packages) 2).
  - reflexivity.
  - reflexivity.
  - repeat constructor; simpl; intuition discriminate.
  - intros id _. apply NoDup_count_occ.
    repeat constructor; simpl; intuition discriminate.
Defined.

(** ** The issues after a second run *)

Lemma effect_on_fields op i :
  Issue.number (effect_on op i) = Issue.number i
  /\ Issue.title (effect_on op i) = Issue.title i
  /\ Issue.labels (effect_on op i) = Issue.labels i.
Proof.
  destruct op as [v|n v|n]; unfold effect_on, patch;
    cbn [call_of IssuesUpdate.issue_number IssuesUpdate.title
         IssuesUpdate.labels or_keep]; try (now repeat split);
    destruct (Pos.eqb (Issue.number i) n); now repeat split.
Qed.

Lemma apply_all_fields ops i :
  Issue.number (apply_all ops i) = Issue.number i
  /\ Issue.title (apply_all ops i) = Issue.title i
  /\ Issue.labels (apply_all ops i) = Issue.labels i.
Proof.
  unfold apply_all. revert i. induction ops as [|op ops IH]; intros i;
    [now repeat split|].
  cbn [fold_left]. destruct (IH (effect_on op i)) as (H1 & H2 & H3).
  destruct (effect_on_fields op i) as (E1 & E2 & E3).
  repeat split; congruence.
Qed.

Lemma effect_on_unaddressed op i :
  addressed op <> Some (Issue.number i) -> effect_on op i = i.
Proof.
  intros H. destruct op as [v|n v|n]; unfold effect_on, patch;
    cbn [call_of IssuesUpdate.issue_number]; [reflexivity| |];
    (destruct (Pos.eqb (Issue.number i) n) eqn:E; [|reflexivity]);
    apply Pos.eqb_eq in E; cbn [addressed] in H; congruence.
Qed.

Lemma apply_all_fixed ops i :
  (forall op, In op ops -> effect_on op i = i) -> apply_all ops i = i.
Proof.
  unfold apply_all. induction ops as [|op ops IH]; intros H; [reflexivity|].
  cbn [fold_left]. rewrite (H op) by now left.
  apply IH. intros op' Hop'. apply H. now right.
Qed.

(** The state of an issue after a list of operations: open when it was open
    and no CLOSE addressed it. *)
Lemma apply_all_open ops i :
  Issue.state (apply_all ops i) = open
  <-> Issue.state i = open /\ ~ In (CLOSE (Issue.number i)) ops.
Proof.
  unfold apply_all. revert i. induction ops as [|op ops IH]; intros i.
  - simpl. tauto.
  - cbn [fold_left]. rewrite IH.
    destruct (effect_on_fields op i) as (E1 & _). rewrite E1.
    destruct op as [v|n v|n]; unfold effect_on, patch;
      cbn [call_of IssuesUpdate.issue_number IssuesUpdate.state or_keep In].
    + intuition discriminate.
    + destruct (Pos.eqb (Issue.number i) n); cbn [Issue.state];
        intuition discriminate.
    + destruct (Pos.eqb (Issue.number i) n) eqn:E; cbn [Issue.state].
      * apply Pos.eqb_eq in E. subst n. split; [intuition discriminate|].
        intros [_ H]. exfalso. apply H. now left.
      * apply Pos.eqb_neq in E. intuition congruence.
Qed.

(** The body of an issue after a list of operations: that of the last
    UPDATE that addressed it. *)
Lemma apply_all_body ops i :
  Issue.body (apply_all ops i)
  = match last_update (Issue.number i) ops None with
    | Some v => generateIssueBody v
    | None => Issue.body i
    end.
Proof.
  unfold apply_all, last_update.
  assert (G : forall (acc : option Vulnerability) j,
             Issue.number j = Issue.number i ->
             Issue.body j = match acc with
                            | Some v => generateIssueBody v
                            | None => Issue.body i
                            end ->
             Issue.body (fold_left (fun i op => effect_on op i) ops j)
             = match fold_left
                       (fun acc op =>
                          match op with
                          | UPDATE m v =>
                              if Pos.eqb (Issue.number i) m then Some v else acc
                          | CREATE _ | CLOSE _ => acc
                          end) ops acc with
               | Some v => generateIssueBody v
               | None => Issue.body i
               end).
  { induction ops as [|op ops IH]; intros acc j Hn Hb; [exact Hb|].
    cbn [fold_left]. apply IH.
    - destruct (effect_on_fields op j) as (E & _). congruence.
    - destruct op as [v|n v|n]; unfold effect_on, patch;
        cbn [call_of IssuesUpdate.issue_number IssuesUpdate.body or_keep].
      + exact Hb.
      + rewrite Hn. destruct (Pos.eqb (Issue.number i) n); [reflexivity|].
        exact Hb.
      + destruct (Pos.eqb (Issue.number j) n); exact Hb. }
  now apply G.
Qed.

Lemma last_update_In n ops acc v :
  last_update n ops acc = Some v -> acc = Some v \/ In (UPDATE n v) ops.
Proof.
  unfold last_update. revert acc. induction ops as [|op ops IH]; intros acc H;
    [now left|].
  cbn [fold_left] in H. apply IH in H as [H|H]; [|right; now right].
  destruct op as [v'|m v'|m]; [now left| |now left].
  destruct (Pos.eqb n m) eqn:E; [|now left].
  apply Pos.eqb_eq in E. subst m. injection H as ->. right. now left.
Qed.

Lemma last_update_Some n ops acc v :
  In (UPDATE n v) ops -> exists v', last_update n ops acc = Some v'.
Proof.
  unfold last_update. revert acc. induction ops as [|op ops IH]; intros acc H;
    [easy|].
  cbn [fold_left]. destruct H as [->|H]; [|now apply IH].
  rewrite Pos.eqb_refl. clear IH.
  generalize v. induction ops as [|op ops IH]; intros v0; [now exists v0|].
  cbn [fold_left]. destruct op as [v'|m v'|m]; try apply IH.
  destruct (Pos.eqb n m); apply IH.
Qed.

(** The issues after a list of operations of which none addresses a number
    that is still to be given out: the issues opened, then the issues that
    were there, each with what the operations did to it. *)
Lemma carry_out_split ops g :
  (forall op n, In op ops -> addressed op = Some n ->
                (n < next_number g)%positive) ->
  exists news,
    carry_out ops g = news ++ map (apply_all ops) g
    /\ Forall (fun i => (next_number g <= Issue.number i)%positive
                        /\ exists v, In (CREATE v) ops
                                     /\ i = opened (Issue.number i) v)
         news.
Proof.
  unfold carry_out. revert g. induction ops as [|op ops IH]; intros g Hb.
  - exists []. split; [|constructor]. cbn [fold_left app].
    symmetry. rewrite <- (map_id g) at 2. apply map_ext. reflexivity.
  - cbn [fold_left].
    destruct (IH (github_step (call_of op) g)) as (news & Heq & Hnews).
    { intros op' n Hop' Hn. pose proof (next_number_step op g).
      assert (n < next_number g)%positive by (apply (Hb op'); [now right|assumption]).
      lia. }
    rewrite Heq. pose proof (next_number_step op g) as Hstep.
    assert (Hnews' : Forall (fun i => (next_number g <= Issue.number i)%positive
                                      /\ exists v, In (CREATE v) (op :: ops)
                                                   /\ i = opened (Issue.number i) v)
                       news).
    { eapply Forall_impl; [|exact Hnews]. cbv beta.
      intros i (Hle & v & Hv & Hi). split; [lia|]. exists v. split; [now right|assumption]. }
    destruct op as [v|n v|n]; cbn [call_of github_step].
    + unfold github_create. cbn [map].
      exists (news ++ [opened (next_number g) v]). split.
      * rewrite <- app_assoc. cbn [app]. do 2 f_equal.
        apply apply_all_fixed. intros op' Hop'.
        apply effect_on_unaddressed. cbn [Issue.number]. intros Hadd.
        assert (next_number g < next_number g)%positive
          by (apply (Hb op'); [now right|assumption]).
        lia.
      * apply Forall_app. split; [assumption|]. constructor; [|constructor].
        cbn [opened Issue.number]. split; [lia|]. exists v.
        split; [now left | reflexivity].
    + exists news. split; [|assumption]. f_equal.
      unfold github_update. rewrite map_map. reflexivity.
    + exists news. split; [|assumption]. f_equal.
      unfold github_update. rewrite map_map. reflexivity.
Qed.

Lemma carry_out_no_create ops g :
  creates ops = [] -> carry_out ops g = map (apply_all ops) g.
Proof.
  unfold carry_out. revert g. induction ops as [|op ops IH]; intros g Hc.
  - cbn [fold_left]. rewrite <- (map_id g) at 1. apply map_ext. reflexivity.
  - cbn [fold_left]. destruct op as [v|n v|n]; [discriminate| |];
      cbn [creates flat_map app] in Hc; rewrite IH by assumption;
      cbn [call_of github_step]; unfold github_update; rewrite map_map;
      reflexivity.
Qed.

Lemma fold_left_filter {A B} (F : B -> A -> B) (P : A -> bool) l b :
  fold_left F (filter P l) b
  = fold_left (fun acc x => if P x then F acc x else acc) l b.
Proof.
  revert b. induction l as [|x l IH]; intros b; [reflexivity|].
  cbn [filter fold_left]. destruct (P x); cbn [fold_left]; apply IH.
Qed.

Lemma fold_left_map {A B C} (F : C -> B -> C) (f : A -> B) l c :
  fold_left F (map f l) c = fold_left (fun acc x => F acc (f x)) l c.
Proof.
  revert c. induction l as [|x l IH]; intros c; [reflexivity|].
  cbn [map fold_left]. apply IH.
Qed.

Lemma fold_left_ext_in {A B} (F G : B -> A -> B) l b :
  (forall acc x, In x l -> F acc x = G acc x) ->
  fold_left F l b = fold_left G l b.
Proof.
  revert b. induction l as [|x l IH]; intros b H; [reflexivity|].
  cbn [fold_left]. rewrite H by now left.
  apply IH. intros acc y Hy. apply H. now right.
Qed.

(** A fold that remembers the last hit: the start value only matters when
    nothing hits. *)
Lemma fold_last_hit {A B} (hit : A -> bool) (val : A -> B) l (start : option B) :
  fold_left (fun acc x => if hit x then Some (val x) else acc) l start
  = match fold_left (fun acc x => if hit x then Some (val x) else acc) l None
    with
    | Some b => Some b
    | None => start
    end.
Proof.
  revert start. induction l as [|x l IH]; intros start; [reflexivity|].
  cbn [fold_left]. destruct (hit x).
  - rewrite (IH (Some (val x))). now destruct (fold_left _ l None).
  - apply IH.
Qed.

(** The number the index holds for [id]: that of the last listed issue
    whose title yields [id]. *)
Lemma index_get_last issues id :
  JsObject.get id (issueIndex issues)
  = fold_left (fun acc i => if yields id i then Some (Issue.number i) else acc)
      issues None.
Proof.
  unfold issueIndex.
  change (@None positive) with (JsObject.get id (@JsObject.empty positive)).
  generalize (@JsObject.empty positive).
  induction issues as [|i issues IH]; intros m; [reflexivity|].
  cbn [fold_left]. rewrite IH. f_equal. unfold yields.
  destruct (SNYK_ID_REGEX_exec (Issue.title i)) as [id'|]; [|reflexivity].
  destruct (String.eqb id id') eqn:E.
  - apply String.eqb_eq in E. subst. apply get_set_same.
  - apply String.eqb_neq in E. now apply get_set_other.
Qed.

Lemma listed_by_state_labels p i j :
  Issue.state i = Issue.state j -> Issue.labels i = Issue.labels j ->
  listed p i = listed p j.
Proof. unfold listed. now intros -> ->. Qed.

Lemma yields_spec id i :
  yields id i = true <-> SNYK_ID_REGEX_exec (Issue.title i) = Some id.
Proof.
  unfold yields. destruct (SNYK_ID_REGEX_exec (Issue.title i)) as [id'|].
  - rewrite String.eqb_eq. split; congruence.
  - split; discriminate.
Qed.

Lemma listed_spec i :
  listed listParams i = true
  <-> Issue.state i = open /\ In "snyk-vulnerability" (Issue.labels i).
Proof.
  unfold listed, listParams. cbn [ListForRepo.state ListForRepo.labels].
  rewrite andb_true_iff, existsb_exists. split.
  - intros (Hs & l & Hl & El). apply String.eqb_eq in El. subst l.
    destruct (Issue.state i); [auto | discriminate].
  - intros (Hs & Hl). rewrite Hs. split; [reflexivity|].
    exists "snyk-vulnerability". split; [assumption | reflexivity].
Qed.

Section SecondRunState.

Variable report : Snyk.Report.
Variable g : list Issue.t.
Variable store : JsObject.t Vulnerability.

Let index := issueIndex (labelled_open g).
Let ops := map snd (plan store index).
Let g' := github_after report g.

Hypothesis grouping : vulnerabilityStore report = Returns store.
Hypothesis tokens : forallb is_token (JsObject.keys store) = true.
Hypothesis numbers : NoDup (map Issue.number g).
Hypothesis tracked_once :
  forall id, JsObject.lookup id store = JsObject.Undefined ->
             (count_occ string_dec (identifiers (labelled_open g)) id <= 1)%nat.

Lemma first_ops op :
  In op ops
  <-> match op with
      | CREATE v => exists id, JsObject.get id store = Some v
                               /\ JsObject.get id index = None
      | UPDATE n v => exists id, JsObject.get id store = Some v
                                 /\ JsObject.get id index = Some n
      | CLOSE n => exists id, JsObject.lookup id store = JsObject.Undefined
                              /\ JsObject.get id index = Some n
      end.
Proof. apply plan_operations; keys_distinct. Qed.

Lemma indexed_issue id n :
  JsObject.get id index = Some n ->
  exists i, In i g /\ listed listParams i = true /\ yields id i = true
            /\ Issue.number i = n.
Proof.
  intros H. apply issueIndex_get in H as (i & Hi & Hid & Hn).
  unfold labelled_open in Hi. apply filter_In in Hi as [Hi Hl].
  exists i. repeat split; try assumption. now apply yields_spec.
Qed.

(** An issue of [g] that is listed and yields [id] is the one any index
    entry with its number belongs to. *)
Lemma indexed_number_id i id id' :
  In i g -> yields id i = true ->
  JsObject.get id' index = Some (Issue.number i) -> id' = id.
Proof.
  intros Hi Hy H. apply indexed_issue in H as (j & Hj & _ & Hyj & Hn).
  assert (j = i) by (apply (NoDup_map_injective Issue.number g); assumption).
  subst j. apply yields_spec in Hy, Hyj. congruence.
Qed.

Lemma addressed_below op n :
  In op ops -> addressed op = Some n -> (n < next_number g)%positive.
Proof.
  intros Hop Hn. apply first_ops in Hop.
  destruct op as [v|m v|m]; cbn [addressed] in Hn; [discriminate| |];
    injection Hn as ->; destruct Hop as (id & _ & H);
    apply indexed_issue in H as (i & Hi & _ & _ & <-);
    now apply number_lt_next.
Qed.

Lemma first_run_split :
  exists news,
    g' = news ++ map (apply_all ops) g
    /\ Forall (fun i => (next_number g <= Issue.number i)%positive
                        /\ exists v, In (CREATE v) ops
                                     /\ i = opened (Issue.number i) v)
         news.
Proof.
  unfold g'. rewrite main_live_github.
  rewrite (plan_of_Returns report store g grouping). apply carry_out_split.
  intros op n. apply addressed_below.
Qed.

(** A listed issue that tracks an identifier of the report stays listed. *)
Lemma tracked_stays_listed i id v :
  In i g -> yields id i = true -> JsObject.get id store = Some v ->
  listed listParams (apply_all ops i) = listed listParams i.
Proof.
  intros Hi Hy Hv.
  destruct (apply_all_fields ops i) as (_ & _ & Hl).
  destruct (listed listParams i) eqn:E.
  - apply listed_spec in E as [Hs Hlab]. apply listed_spec. rewrite Hl.
    split; [|assumption]. apply apply_all_open. split; [assumption|].
    intros Hc. apply first_ops in Hc as (id' & Hnone & Hn).
    apply (indexed_number_id i id id' Hi Hy) in Hn. subst id'.
    apply lookup_Undefined in Hnone as [Hnone _]. congruence.
  - destruct (listed listParams (apply_all ops i)) eqn:E'; [|reflexivity].
    apply listed_spec in E' as [Hs Hlab]. rewrite Hl in Hlab.
    apply apply_all_open in Hs as [Hs _].
    assert (listed listParams i = true) by now apply listed_spec.
    congruence.
Qed.

(** The second index holds, for an identifier of the report that the first
    index held, the number the first index held. *)
Lemma second_index_same id v n :
  JsObject.get id store = Some v -> JsObject.get id index = Some n ->
  JsObject.get id (issueIndex (labelled_open g')) = Some n.
Proof.
  intros Hv Hn. destruct first_run_split as (news & -> & _).
  rewrite index_get_last. unfold labelled_open.
  rewrite fold_left_filter, fold_left_app, fold_left_map.
  rewrite (fold_left_ext_in _
             (fun acc i => if listed listParams i && yields id i
                           then Some (Issue.number i) else acc)).
  - rewrite (fold_last_hit (fun i => listed listParams i && yields id i)
               Issue.number).
    assert (H0 : fold_left
                   (fun acc i => if listed listParams i && yields id i
                                 then Some (Issue.number i) else acc) g None
                 = Some n).
    { unfold index in Hn. rewrite index_get_last in Hn.
      unfold labelled_open in Hn. rewrite fold_left_filter in Hn.
      rewrite <- Hn. apply fold_left_ext_in. intros acc i _.
      now destruct (listed listParams i), (yields id i). }
    now rewrite H0.
  - intros acc i Hi.
    destruct (apply_all_fields ops i) as (Hnum & Htitle & _).
    assert (Hy : yields id (apply_all ops i) = yields id i)
      by (unfold yields; now rewrite Htitle).
    rewrite Hy, Hnum.
    destruct (yields id i) eqn:E.
    + rewrite (tracked_stays_listed i id v Hi E Hv).
      now destruct (listed listParams i).
    + rewrite andb_false_r.
      now destruct (listed listParams (apply_all ops i)).
Qed.

Lemma update_unique n v v' :
  In (UPDATE n v) ops -> In (UPDATE n v') ops -> v = v'.
Proof.
  intros H H'. apply first_ops in H as (id & Hv & Hn).
  apply first_ops in H' as (id' & Hv' & Hn').
  destruct (indexed_issue id n Hn) as (i & Hi & _ & Hy & <-).
  apply (indexed_number_id i id id' Hi Hy) in Hn'. subst id'. congruence.
Qed.

Lemma store_title id v :
  JsObject.get id store = Some v ->
  yields id (opened 1 v) = true.
Proof.
  intros Hv. apply yields_spec. cbn [opened Issue.title].
  assert (Hin : In (id, v) store) by now apply get_Some_In.
  rewrite (store_snykId report store id v grouping Hin).
  apply exec_created_title.
  rewrite forallb_forall in tokens. apply tokens. eauto using In_keys.
Qed.

(** After the first run, the issue that the second index holds for an
    identifier of the report has the body rendered from the report. *)
Lemma second_index_body id v n i :
  JsObject.get id store = Some v ->
  JsObject.get id (issueIndex (labelled_open g')) = Some n ->
  In i g' -> Issue.number i = n ->
  Issue.body i = generateIssueBody v.
Proof.
  intros Hv Hn Hi Hnum.
  assert (Hnd : NoDup (map Issue.number g'))
    by now apply github_after_numbers_NoDup.
  destruct first_run_split as (news & Hg' & Hnews).
  destruct (JsObject.get id index) as [m|] eqn:Em.
  - rewrite (second_index_same id v m Hv Em) in Hn. injection Hn as <-.
    destruct (indexed_issue id m Em) as (i0 & Hi0 & _ & _ & Hm0).
    rewrite Hg' in Hi. apply in_app_iff in Hi as [Hi|Hi].
    + rewrite Forall_forall in Hnews. destruct (Hnews i Hi) as (Hle & _).
      apply number_lt_next in Hi0. lia.
    + apply in_map_iff in Hi as (j & <- & Hj).
      destruct (apply_all_fields ops j) as (Hnj & _ & _).
      rewrite apply_all_body.
      assert (Hup : In (UPDATE (Issue.number j) v) ops).
      { apply first_ops. exists id. split; [assumption|]. congruence. }
      destruct (last_update_Some (Issue.number j) ops None v Hup) as (v' & Hv').
      rewrite Hv'. apply last_update_In in Hv' as [Hv'|Hv']; [discriminate|].
      now rewrite (update_unique _ _ _ Hup Hv').
  - destruct (issueIndex_get _ _ _ Hn) as (i1 & Hi1 & Hid1 & Hn1).
    unfold labelled_open in Hi1. apply filter_In in Hi1 as [Hi1 Hl1].
    assert (i1 = i)
      by (apply (NoDup_map_injective Issue.number g'); congruence).
    subst i1. rewrite Hg' in Hi. apply in_app_iff in Hi as [Hi|Hi].
    + rewrite Forall_forall in Hnews.
      destruct (Hnews i Hi) as (_ & v' & Hc & Heq).
      apply first_ops in Hc as (id' & Hv' & _).
      pose proof (store_title id' v' Hv') as Hy. apply yields_spec in Hy.
      cbn [opened Issue.title] in Hy.
      rewrite Heq in Hid1. cbn [opened Issue.title] in Hid1.
      assert (id' = id) by congruence. subst id'.
      rewrite Heq. cbn [opened Issue.body]. congruence.
    + apply in_map_iff in Hi as (j & <- & Hj).
      destruct (apply_all_fields ops j) as (_ & Htj & Hlj).
      apply listed_spec in Hl1 as [Hs Hlab].
      apply apply_all_open in Hs as [Hs _]. rewrite Hlj in Hlab.
      assert (Hin : In id (JsObject.keys index)).
      { apply issueIndex_keys, In_identifiers. exists j. split.
        - unfold labelled_open. apply filter_In. split; [assumption|].
          now apply listed_spec.
        - congruence. }
      apply get_In_keys in Hin. congruence.
Qed.

(** The second run leaves GitHub's issues as the first run left them. *)
Lemma second_run_fixed : github_after report g' = g'.
Proof.
  rewrite main_live_github.
  pose proof (second_plan_updates report g store grouping tokens numbers
                tracked_once) as Hup.
  unfold second_plan in Hup. fold g' in Hup.
  assert (Hops : forall op, In op (map snd (plan_of report g')) ->
                 exists id n v, op = UPDATE n v
                                /\ JsObject.get id store = Some v
                                /\ JsObject.get id (issueIndex (labelled_open g'))
                                   = Some n).
  { intros op Hop. pose proof Hop as Hop'.
    apply in_map_iff in Hop' as (e & <- & He).
    rewrite forallb_forall in Hup. specialize (Hup e He).
    rewrite (plan_of_Returns report store g' grouping) in Hop.
    apply plan_operations in Hop; [|keys_distinct..].
    destruct (snd e) as [v|n v|n]; try discriminate.
    destruct Hop as (id & H1 & H2). now exists id, n, v. }
  rewrite carry_out_no_create.
  - transitivity (map (fun i : Issue.t => i) g'); [|apply map_id].
    apply map_ext_in. intros i Hi.
    apply apply_all_fixed. intros op Hop.
    destruct (Hops op Hop) as (id & n & v & -> & Hv & Hn).
    unfold effect_on, patch. cbn [call_of IssuesUpdate.issue_number].
    destruct (Pos.eqb (Issue.number i) n) eqn:E; [|reflexivity].
    apply Pos.eqb_eq in E.
    rewrite <- (second_index_body id v n i Hv Hn Hi E).
    now destruct i.
  - induction (map snd (plan_of report g')) as [|op l IH]; [reflexivity|].
    destruct (Hops op) as (id & n & v & -> & _); [now left|].
    cbn [creates flat_map app]. apply IH. intros op' Hop'. apply Hops.
    now right.
Qed.

End SecondRunState.

(** Under the conditions of the amended C2, the first live run brings
    GitHub's issues to a state that further live runs on the same report
    leave exactly as it is: numbers, titles, labels, states and bodies. *)
Theorem later_runs_change_nothing (report : Snyk.Report) (g : list Issue.t)
  (store : JsObject.t Vulnerability) (n : nat) :
  vulnerabilityStore report = Returns store ->
  forallb is_token (JsObject.keys store) = true ->
  NoDup (map Issue.number g) ->
  (forall id,
      JsObject.lookup id store = JsObject.Undefined ->
      (count_occ string_dec (identifiers (labelled_open g)) id <= 1)%nat) ->
  runs (S n) report g = github_after report g.
Proof.
  intros Hstore Htok Hnd Honce. induction n as [|n IH]; [reflexivity|].
  change (runs (S (S n)) report g)
    with (github_after report (runs (S n) report g)).
  rewrite IH. now apply (second_run_fixed report g store).
Qed.

Lemma later_runs_change_nothing_witness :
  runs 3 report_two_packages issues_sample
  = github_after report_two_packages issues_sample.
Proof.
  apply (later_runs_change_nothing report_two_packages issues_sample
           (grouped report_two_packages) 2).
  - reflexivity.
  - reflexivity.
  - repeat constructor; simpl; intuition discriminate.
  - intros id _. apply NoDup_count_occ.
    repeat constructor; simpl; intuition discriminate.
Defined.
